(** * Status block renderer: a shallow embedding of [StatusManager]

    Two variants of the class live in the repository: the fixed-size one
    (lines addressed by index, module [Fixed]) and the dynamic keyed one
    (lines addressed by a number-or-string key, module [Dynamic]).  Both
    write escape sequences to [process.stdout] and wrap the three console
    functions.  Every method is embedded as a computation in a small
    state-and-trace monad; the trace records each [process.stdout.write]
    and each call of a native console function, in order.  JavaScript
    numbers are taken to be integers ([Z]); the arguments of a console call
    are taken as one already formatted string. *)

From Stdlib Require Import ZArith List String Ascii Bool Lia DecimalString.
From Stdlib Require Import Permutation.
From Stdlib Require DecimalZ.
Import ListNotations.
Local Open Scope Z_scope.

(** ** JavaScript strings and the few primitives the code uses *)

(** A JS string is a sequence of code units; [string] plays that role, one
    [ascii] per code unit. *)
Definition js_length (s : string) : Z := Z.of_nat (String.length s).

Definition clamp (lo hi x : Z) : Z := Z.max lo (Z.min hi x).

(** [s.substring(start, end)]: both indices are clamped to [0, length] and
    swapped when [start > end]. *)
Definition js_substring (s : string) (start stop : Z) : string :=
  let a := clamp 0 (js_length s) start in
  let b := clamp 0 (js_length s) stop in
  let lo := Z.min a b in
  let hi := Z.max a b in
  String.substring (Z.to_nat lo) (Z.to_nat (hi - lo)) s.

(** Truthiness of a [string | undefined] value: only a non-empty string is
    truthy. *)
Definition truthy (v : option string) : bool :=
  match v with
  | Some s => negb (String.eqb s EmptyString)
  | None => false
  end.

(** [v || ''] *)
Definition or_empty (v : option string) : string :=
  if truthy v then match v with Some s => s | None => EmptyString end
  else EmptyString.

(** [a[i] != b[i]] on code units; an index past the end reads [undefined]. *)
Definition char_neq (x y : option ascii) : bool :=
  match x, y with
  | Some c, Some d => negb (Ascii.eqb c d)
  | None, None => false
  | _, _ => true
  end.

(** ** getCommonPrefixLength *)

(** The [for (; i < n; ++i) { if (a[i] != b[i]) break }] loop; [fuel] bounds
    the number of iterations. *)
Fixpoint prefix_loop (fuel : nat) (a b : string) (n i : nat) : nat :=
  match fuel with
  | O => i
  | S fuel' =>
      if (i <? n)%nat then
        if char_neq (String.get i a) (String.get i b) then i
        else prefix_loop fuel' a b n (S i)
      else i
  end.

Definition getCommonPrefixLength (a b : string) : nat :=
  let n := Nat.min (String.length a) (String.length b) in
  prefix_loop n a b n 0.

(** ** The terminal and the console, as seen by the program *)

(** [process.stdout.rows] and [process.stdout.columns] at the time of a call.
    [columns] may be undefined; [rows] is taken as reported. *)
Record Tty := { rows : Z; columns : option Z }.

(** [(process.stdout.columns || 80)]: undefined and 0 are both falsy. *)
Definition columns_or_80 (t : Tty) : Z :=
  match columns t with
  | Some c => if c =? 0 then 80 else c
  | None => 80
  end.

Inductive Channel := ChLog | ChError | ChWarn.

(** One entry per [process.stdout.write] or native console call. *)
Inductive Event :=
| CursorTo (row col : Z)            (* ESC [ row ; col H *)
| EraseLine                         (* ESC [ 2 K *)
| EraseToEnd                        (* ESC [ 0 K *)
| Newline                           (* "\n" *)
| Text (s : string)                 (* status text *)
| Print (c : Channel) (args : string). (* original console function *)

Definition esc : string := String (ascii_of_nat 27) EmptyString.

Definition decimal (z : Z) : string := NilZero.string_of_int (Z.to_int z).

(** The bytes each event puts on the wire. *)
Definition wire (e : Event) : string :=
  match e with
  | CursorTo r c => (esc ++ "[" ++ decimal r ++ ";" ++ decimal c ++ "H")%string
  | EraseLine => (esc ++ "[2K")%string
  | EraseToEnd => (esc ++ "[0K")%string
  | Newline => String (ascii_of_nat 10) EmptyString
  | Text s => s
  | Print _ args => (args ++ String (ascii_of_nat 10) EmptyString)%string
  end.

Definition wire_all (tr : list Event) : string :=
  fold_right (fun e acc => (wire e ++ acc)%string) EmptyString tr.

(** A console function value: a native one, or the closure returned by
    [interceptConsole(originalFn)]. *)
Inductive LogFn :=
| Native (c : Channel)
| Intercepted (originalFn : LogFn).

(** The process-wide [console] object. *)
Record Console := {
  console_log : LogFn;
  console_error : LogFn;
  console_warn : LogFn
}.

Definition native_console : Console :=
  {| console_log := Native ChLog;
     console_error := Native ChError;
     console_warn := Native ChWarn |}.

(** ** A state-and-trace monad with exceptions *)

Inductive Completion (A : Type) :=
| Normal (a : A)
| Thrown (msg : string).
Arguments Normal {A} a.
Arguments Thrown {A} msg.

Record Run (W A : Type) := mkRun {
  completion : Completion A;
  final : W;
  written : list Event
}.
Arguments mkRun {W A}.
Arguments completion {W A}.
Arguments final {W A}.
Arguments written {W A}.

Definition Eff (W A : Type) : Type := W -> Run W A.

Section Effects.
Context {W : Type}.

Definition ret {A} (a : A) : Eff W A := fun w => mkRun (Normal a) w [].

Definition bind {A B} (m : Eff W A) (f : A -> Eff W B) : Eff W B :=
  fun w =>
    let r := m w in
    match completion r with
    | Normal a =>
        let r' := f a (final r) in
        mkRun (completion r') (final r') (written r ++ written r')
    | Thrown msg => mkRun (Thrown msg) (final r) (written r)
    end.

Definition throw {A} (msg : string) : Eff W A :=
  fun w => mkRun (Thrown msg) w [].

Definition emit (e : Event) : Eff W unit :=
  fun w => mkRun (Normal tt) w [e].

Definition gets {A} (f : W -> A) : Eff W A :=
  fun w => mkRun (Normal (f w)) w [].

Definition modify (f : W -> W) : Eff W unit :=
  fun w => mkRun (Normal tt) (f w) [].

Definition when (b : bool) (m : Eff W unit) : Eff W unit :=
  if b then m else ret tt.

(** [for (let i = start; ...; i++) body(i)], [count] iterations. *)
Fixpoint for_from (body : Z -> Eff W unit) (start : Z) (count : nat)
  : Eff W unit :=
  match count with
  | O => ret tt
  | S c => bind (body start) (fun _ => for_from body (start + 1) c)
  end.

(** [for (let i = 0; i < n; i++) body(i)] *)
Definition for_upto (n : Z) (body : Z -> Eff W unit) : Eff W unit :=
  for_from body 0 (Z.to_nat n).

(** [for (var i = n; --i >= 0;) body(i)], written with the number of
    iterations left. *)
Fixpoint for_down_from (body : Z -> Eff W unit) (left : nat) : Eff W unit :=
  match left with
  | O => ret tt
  | S l => bind (body (Z.of_nat l)) (fun _ => for_down_from body l)
  end.

Definition for_down (n : Z) (body : Z -> Eff W unit) : Eff W unit :=
  for_down_from body (Z.to_nat n).

(** [for (var x of xs) body(x)] *)
Fixpoint for_of {X} (xs : list X) (body : X -> Eff W unit) : Eff W unit :=
  match xs with
  | [] => ret tt
  | x :: rest => bind (body x) (fun _ => for_of rest body)
  end.
End Effects.

Declare Scope eff_scope.
Delimit Scope eff_scope with eff.
Notation "x <- m ;; k" := (bind m (fun x => k))
  (at level 61, m at next level, right associativity) : eff_scope.
Notation "m ;; k" := (bind m (fun _ => k))
  (at level 61, right associativity) : eff_scope.

(** The indices visited by the two counting loops. *)
Fixpoint zseq (start : Z) (count : nat) : list Z :=
  match count with
  | O => []
  | S c => start :: zseq (start + 1) c
  end.

Fixpoint zdown (count : nat) : list Z :=
  match count with
  | O => []
  | S c => Z.of_nat c :: zdown c
  end.

(** ** JavaScript arrays and maps *)

(** [string[]] with holes: [None] is an index that reads [undefined]. *)
Definition JsArray := list (option string).

Definition array_get (l : JsArray) (i : Z) : option string :=
  if i <? 0 then None
  else match nth_error l (Z.to_nat i) with
       | Some v => v
       | None => None
       end.

(** [l[i] = v] for [i >= 0]: an index past the end extends the array,
    leaving holes in between. *)
Fixpoint array_put (l : JsArray) (i : nat) (v : string) : JsArray :=
  match i, l with
  | O, [] => [Some v]
  | O, _ :: rest => Some v :: rest
  | S j, [] => None :: array_put [] j v
  | S j, x :: rest => x :: array_put rest j v
  end.

(** [Array(n)] throws a RangeError unless [n] is an array length, an
    integer from 0 to 2^32 - 1. *)
Definition max_array_length : Z := 4294967295.

(** Keys of the dynamic variant: [K extends number | string]. *)
Inductive Key :=
| KNum (n : Z)
| KStr (s : string).

Definition key_eqb (a b : Key) : bool :=
  match a, b with
  | KNum x, KNum y => x =? y
  | KStr s, KStr t => String.eqb s t
  | _, _ => false
  end.

(** A [Map<K, V>]: entries in insertion order; [set] on a present key keeps
    its position. *)
Definition JsMap (V : Type) := list (Key * V).

Section JsMapOps.
Context {V : Type}.

Fixpoint map_get (m : JsMap V) (k : Key) : option V :=
  match m with
  | [] => None
  | (k', v) :: rest => if key_eqb k' k then Some v else map_get rest k
  end.

Fixpoint map_set (m : JsMap V) (k : Key) (v : V) : JsMap V :=
  match m with
  | [] => [(k, v)]
  | (k', v') :: rest =>
      if key_eqb k' k then (k', v) :: rest
      else (k', v') :: map_set rest k v
  end.

Definition map_size (m : JsMap V) : Z := Z.of_nat (List.length m).

Definition map_keys (m : JsMap V) : list Key := map fst m.

Definition map_values (m : JsMap V) : list V := map snd m.
End JsMapOps.

Definition console_get (c : Channel) (k : Console) : LogFn :=
  match c with
  | ChLog => console_log k
  | ChError => console_error k
  | ChWarn => console_warn k
  end.

(** The calls a client makes: the three public methods and the console
    functions (whatever they are bound to at that moment). *)
Inductive Op (K : Type) :=
| Start
| Update (key : K) (content : string)
| ConsoleCall (c : Channel) (args : string)
| Stop.
Arguments Start {K}.
Arguments Update {K} key content.
Arguments ConsoleCall {K} c args.
Arguments Stop {K}.

(** ** The fixed-size variant (src/index.ts) *)

Module Fixed.

Record StatusManager := {
  lines : JsArray;
  totalLines : Z;
  dirty : bool;
  originalLog : LogFn;
  originalError : LogFn;
  originalWarn : LogFn
}.

(** The object together with the global [console] it patches. *)
Record World := { this : StatusManager; console : Console }.

Definition set_lines (l : JsArray) (w : World) : World :=
  {| this := {| lines := l;
                totalLines := totalLines (this w);
                dirty := dirty (this w);
                originalLog := originalLog (this w);
                originalError := originalError (this w);
                originalWarn := originalWarn (this w) |};
     console := console w |}.

Definition set_dirty (d : bool) (w : World) : World :=
  {| this := {| lines := lines (this w);
                totalLines := totalLines (this w);
                dirty := d;
                originalLog := originalLog (this w);
                originalError := originalError (this w);
                originalWarn := originalWarn (this w) |};
     console := console w |}.

Definition set_console (k : Console) (w : World) : World :=
  {| this := this w; console := k |}.

(** [new StatusManager(totalLines)] under console [k]. *)
Definition constructor (n : Z) (k : Console) : World :=
  {| this := {| lines := [];
                totalLines := n;
                dirty := false;
                originalLog := console_log k;
                originalError := console_error k;
                originalWarn := console_warn k |};
     console := k |}.

Section Methods.
Variable tty : Tty.
Local Open Scope eff_scope.

Definition getTerminalRow (line : Z) : Z := rows tty - line - 1.

Definition moveCursorToLine (line : Z) : Eff World unit :=
  let row := getTerminalRow line in
  let column := 1 in
  emit (CursorTo row column).

Definition clearLine : Eff World unit := emit EraseLine.

Definition clearLines : Eff World unit :=
  n <- gets (fun w => totalLines (this w)) ;;
  for_upto n (fun i => moveCursorToLine i ;; clearLine).

Definition writeStatusLine (lineIndex : Z) : Eff World unit :=
  clearLine ;;
  l <- gets (fun w => lines (this w)) ;;
  let truncatedContent :=
    js_substring (or_empty (array_get l lineIndex)) 0
                 (columns_or_80 tty - 1) in
  emit (Text truncatedContent).

Definition redrawAllLines : Eff World unit :=
  n <- gets (fun w => totalLines (this w)) ;;
  for_upto n (fun _ => emit Newline) ;;
  for_upto n (fun i => moveCursorToLine i ;; writeStatusLine i) ;;
  modify (set_dirty false).

Definition updateSingleLine (lineIndex : Z) : Eff World unit :=
  moveCursorToLine lineIndex ;;
  writeStatusLine lineIndex.

Definition moveCursorToBottom : Eff World unit :=
  emit (CursorTo (rows tty) 1).

Definition update (lineIndex : Z) (content : string) : Eff World unit :=
  n <- gets (fun w => totalLines (this w)) ;;
  if (lineIndex <? 0) || (lineIndex >=? n) then
    throw "Line index out of range"
  else
    modify (fun w =>
              set_lines (array_put (lines (this w)) (Z.to_nat lineIndex)
                                   content) w) ;;
    d <- gets (fun w => dirty (this w)) ;;
    if d then redrawAllLines else updateSingleLine lineIndex.

(** Calling a console function value.  The closure built by
    [interceptConsole] clears the block once, marks it dirty and then
    applies [originalFn]. *)
Fixpoint invoke (f : LogFn) (args : string) : Eff World unit :=
  match f with
  | Native c => emit (Print c args)
  | Intercepted originalFn =>
      d <- gets (fun w => dirty (this w)) ;;
      when (negb d) (clearLines ;; modify (set_dirty true)) ;;
      invoke originalFn args
  end.

Definition interceptConsole (originalFn : LogFn) : LogFn :=
  Intercepted originalFn.

(** [console.log(args)], [console.error(args)], [console.warn(args)] *)
Definition console_call (c : Channel) (args : string) : Eff World unit :=
  f <- gets (fun w => console_get c (console w)) ;;
  invoke f args.

Definition start : Eff World unit :=
  n <- gets (fun w => totalLines (this w)) ;;
  if (n <? 0) || (n >? max_array_length) then throw "Invalid array length"
  else
    modify (set_lines (repeat (Some EmptyString) (Z.to_nat n))) ;;
    for_upto n (fun _ => console_call ChLog EmptyString) ;;
    console_call ChLog EmptyString ;;
    modify (fun w =>
              set_console
                {| console_log := interceptConsole (originalLog (this w));
                   console_error :=
                     interceptConsole (originalError (this w));
                   console_warn :=
                     interceptConsole (originalWarn (this w)) |} w).

Definition stop : Eff World unit :=
  modify (fun w =>
            set_console
              {| console_log := originalLog (this w);
                 console_error := originalError (this w);
                 console_warn := originalWarn (this w) |} w) ;;
  moveCursorToBottom.

Definition perform (op : Op Z) : Eff World unit :=
  match op with
  | Start => start
  | Update i content => update i content
  | ConsoleCall c args => console_call c args
  | Stop => stop
  end.
End Methods.

(** A session: each call sees the terminal geometry of its moment. *)
Fixpoint session (calls : list (Tty * Op Z)) : Eff World unit :=
  match calls with
  | [] => ret tt
  | (tty, op) :: rest => bind (perform tty op) (fun _ => session rest)
  end.

(** *** What the rendering methods write, in closed form *)

Definition draw_line (tty : Tty) (l : JsArray) (i : Z) : list Event :=
  [CursorTo (rows tty - i - 1) 1; EraseLine;
   Text (js_substring (or_empty (array_get l i)) 0 (columns_or_80 tty - 1))].

Definition redraw_trace (tty : Tty) (l : JsArray) (n : Z) : list Event :=
  repeat Newline (Z.to_nat n)
  ++ flat_map (draw_line tty l) (zseq 0 (Z.to_nat n)).

Definition clear_trace (tty : Tty) (n : Z) : list Event :=
  flat_map (fun i => [CursorTo (rows tty - i - 1) 1; EraseLine])
           (zseq 0 (Z.to_nat n)).

End Fixed.

(** ** The dynamic keyed variant *)

Module Dynamic.

Record StatusManager := {
  statusLines : JsMap string;
  lineNumbers : JsMap Z;
  dirty : bool;
  originalLog : LogFn;
  originalError : LogFn;
  originalWarn : LogFn
}.

Record World := { this : StatusManager; console : Console }.

Definition set_statusLines (m : JsMap string) (w : World) : World :=
  {| this := {| statusLines := m;
                lineNumbers := lineNumbers (this w);
                dirty := dirty (this w);
                originalLog := originalLog (this w);
                originalError := originalError (this w);
                originalWarn := originalWarn (this w) |};
     console := console w |}.

Definition set_lineNumbers (m : JsMap Z) (w : World) : World :=
  {| this := {| statusLines := statusLines (this w);
                lineNumbers := m;
                dirty := dirty (this w);
                originalLog := originalLog (this w);
                originalError := originalError (this w);
                originalWarn := originalWarn (this w) |};
     console := console w |}.

Definition set_dirty (d : bool) (w : World) : World :=
  {| this := {| statusLines := statusLines (this w);
                lineNumbers := lineNumbers (this w);
                dirty := d;
                originalLog := originalLog (this w);
                originalError := originalError (this w);
                originalWarn := originalWarn (this w) |};
     console := console w |}.

Definition set_console (k : Console) (w : World) : World :=
  {| this := this w; console := k |}.

(** [new StatusManager()] under console [k]. *)
Definition constructor (k : Console) : World :=
  {| this := {| statusLines := [];
                lineNumbers := [];
                dirty := false;
                originalLog := console_log k;
                originalError := console_error k;
                originalWarn := console_warn k |};
     console := k |}.

Section Methods.
Variable tty : Tty.
Local Open Scope eff_scope.

Definition numLines : Eff World Z :=
  gets (fun w => map_size (statusLines (this w))).

Definition keys : Eff World (list Key) :=
  gets (fun w => map_keys (lineNumbers (this w))).

Definition getTerminalRow (line : Z) : Z := rows tty - line - 1.

Definition moveCursorToLine (line column : Z) : Eff World unit :=
  let row := getTerminalRow line in
  emit (CursorTo row (column + 1)).

Definition clearLine : Eff World unit := emit EraseLine.

Definition clearLines : Eff World unit :=
  n <- numLines ;;
  for_down n (fun line => moveCursorToLine line 0 ;; clearLine).

Definition writeStatusHere (key : Key) (offset : Z) : Eff World unit :=
  when (offset =? 0) clearLine ;;
  m <- gets (fun w => statusLines (this w)) ;;
  let truncatedContent :=
    js_substring (or_empty (map_get m key)) offset
                 (columns_or_80 tty - 1) in
  emit (Text truncatedContent) ;;
  when (offset >? 0) (emit EraseToEnd).

Definition updateSingleLine (key : Key) (offset : Z) : Eff World unit :=
  line <- gets (fun w => map_get (lineNumbers (this w)) key) ;;
  match line with
  | Some l => moveCursorToLine l offset ;; writeStatusHere key offset
  | None => ret tt
  end.

Definition moveCursorToBottom : Eff World unit :=
  emit (CursorTo (rows tty) 1).

Definition moveCursorToTop : Eff World unit :=
  n <- numLines ;;
  moveCursorToLine (n - 1) 0.

Definition redrawAllLines (fromThisSpot : bool) : Eff World unit :=
  when (negb fromThisSpot) moveCursorToTop ;;
  n <- numLines ;;
  for_down n (fun _ => emit Newline) ;;
  ks <- keys ;;
  for_of ks (fun key => updateSingleLine key 0) ;;
  modify (set_dirty false).

(** The first half of [update]: [None] is the early [return]; otherwise
    the values of [redrawFromThisSpot] and [offset] reaching
    [this.statusLines.set]. *)
Definition update_prepare (key : Key) (content : string)
  : Eff World (option (bool * Z)) :=
  prev <- gets (fun w => map_get (statusLines (this w)) key) ;;
  if truthy prev then
    if String.eqb (or_empty prev) content then ret None
    else
      ret (Some (true,
                 Z.of_nat (getCommonPrefixLength (or_empty prev) content)))
  else
    d <- gets (fun w => dirty (this w)) ;;
    when d (redrawAllLines true) ;;
    lineNumber <- numLines ;;
    modify (fun w =>
              set_lineNumbers
                (map_set (lineNumbers (this w)) key lineNumber) w) ;;
    moveCursorToBottom ;;
    emit Newline ;;
    modify (set_dirty true) ;;
    ret (Some (false, 0)).

Definition update (key : Key) (content : string) : Eff World unit :=
  r <- update_prepare key content ;;
  match r with
  | None => ret tt
  | Some (redrawFromThisSpot, offset) =>
      modify (fun w =>
                set_statusLines
                  (map_set (statusLines (this w)) key content) w) ;;
      d <- gets (fun w => dirty (this w)) ;;
      (if d then redrawAllLines redrawFromThisSpot
       else updateSingleLine key offset) ;;
      moveCursorToBottom
  end.

Fixpoint invoke (f : LogFn) (args : string) : Eff World unit :=
  match f with
  | Native c => emit (Print c args)
  | Intercepted originalFn =>
      d <- gets (fun w => dirty (this w)) ;;
      when (negb d)
           (clearLines ;; moveCursorToTop ;; modify (set_dirty true)) ;;
      invoke originalFn args
  end.

Definition interceptConsole (originalFn : LogFn) : LogFn :=
  Intercepted originalFn.

Definition console_call (c : Channel) (args : string) : Eff World unit :=
  f <- gets (fun w => console_get c (console w)) ;;
  invoke f args.

Definition start : Eff World unit :=
  modify (fun w =>
            set_console
              {| console_log := interceptConsole (originalLog (this w));
                 console_error :=
                   interceptConsole (originalError (this w));
                 console_warn :=
                   interceptConsole (originalWarn (this w)) |} w).

Definition stop : Eff World unit :=
  modify (fun w =>
            set_console
              {| console_log := originalLog (this w);
                 console_error := originalError (this w);
                 console_warn := originalWarn (this w) |} w) ;;
  moveCursorToBottom.

Definition perform (op : Op Key) : Eff World unit :=
  match op with
  | Start => start
  | Update key content => update key content
  | ConsoleCall c args => console_call c args
  | Stop => stop
  end.
End Methods.

Fixpoint session (calls : list (Tty * Op Key)) : Eff World unit :=
  match calls with
  | [] => ret tt
  | (tty, op) :: rest => bind (perform tty op) (fun _ => session rest)
  end.

(** *** What the rendering methods write, in closed form *)

Definition draw_key (tty : Tty) (sl : JsMap string) (ln : JsMap Z)
           (k : Key) : list Event :=
  match map_get ln k with
  | Some l =>
      [CursorTo (rows tty - l - 1) 1; EraseLine;
       Text (js_substring (or_empty (map_get sl k)) 0
                          (columns_or_80 tty - 1))]
  | None => []
  end.

Definition redraw_trace (tty : Tty) (fromThisSpot : bool)
           (sl : JsMap string) (ln : JsMap Z) : list Event :=
  (if fromThisSpot then []
   else [CursorTo (rows tty - (map_size sl - 1) - 1) 1])
  ++ repeat Newline (Z.to_nat (map_size sl))
  ++ flat_map (draw_key tty sl ln) (map_keys ln).

Definition clear_trace (tty : Tty) (n : Z) : list Event :=
  flat_map (fun i => [CursorTo (rows tty - i - 1) 1; EraseLine])
           (zdown (Z.to_nat n))
  ++ [CursorTo (rows tty - (n - 1) - 1) 1].

(** The single-line patch from column [offset]. *)
Definition patch_trace (tty : Tty) (sl : JsMap string) (ln : JsMap Z)
           (k : Key) (offset : Z) : list Event :=
  match map_get ln k with
  | Some l =>
      [CursorTo (rows tty - l - 1) (offset + 1)]
      ++ (if offset =? 0 then [EraseLine] else [])
      ++ [Text (js_substring (or_empty (map_get sl k)) offset
                             (columns_or_80 tty - 1))]
      ++ (if offset >? 0 then [EraseToEnd] else [])
  | None => []
  end.

(** [update] returns early exactly when the stored content is a
    non-empty string equal to the new content. *)
Definition skipped (w : World) (key : Key) (content : string) : bool :=
  let prev := map_get (statusLines (this w)) key in
  truthy prev && String.eqb (or_empty prev) content.

(** The keys, in insertion order, sit on lines 0, 1, ..., numLines-1. *)
Definition contiguous (w : World) : Prop :=
  map (map_get (lineNumbers (this w))) (map_keys (lineNumbers (this w)))
  = map Some (zseq 0 (List.length (statusLines (this w)))).

End Dynamic.

(** ** The terminal, as the escape protocol addresses it

    A grid of rows (top row first) and a cursor, both 1-based.  Only the
    sequences the program emits are interpreted: absolute cursor placement
    (clamped to the grid), erase line, erase to end of line, line feed
    (scrolling the grid when the cursor is on the bottom row) and text.
    Text is read one character at a time: a line feed inside it feeds a
    line, any other character is laid in the cell under the cursor.  That
    is what a terminal does for printable characters that stay inside its
    width and for line feeds, and for nothing else (other control
    characters, escape sequences inside a content, wrapping at the right
    margin): [legible] says whether a trace stays inside these bounds, and
    [run] is the terminal on such traces only. *)

Module Screen.



























End Screen.

(** ** The one-shot cursor position query (getCursorPosition)

    The function puts stdin in raw mode, resumes it, writes the query
    ESC[6n and waits for one line; the handler of that line matches
    [/\[(\d+);(\d+)R/] against it, settles the promise and tears the
    listener and the raw mode down.  The process side is a record; the
    promise is settled at most once. *)

Module CursorQuery.

(** The numbers [parseInt] can return: NaN, a non-negative integer that
    is a double, or +Infinity. *)
Inductive JsNumber :=
| NaN
| Num (z : Z)
| Infinity.

Inductive Promise :=
| Pending
| Resolved (row column : JsNumber)
| Rejected (msg : string).

Record Process := {
  rawMode : bool;       (* process.stdin.setRawMode *)
  flowing : bool;       (* resume() / pause() *)
  listening : bool;     (* the readline interface is open *)
  promise : Promise
}.

(** [\d] *)
Definition is_digit (c : ascii) : bool :=
  (48 <=? nat_of_ascii c)%nat && (nat_of_ascii c <=? 57)%nat.

(** The longest run of digits at the start of [s], and what follows. *)
Fixpoint digits_of (s : string) : string * string :=
  match s with
  | EmptyString => (EmptyString, EmptyString)
  | String c rest =>
      if is_digit c then
        let (d, r) := digits_of rest in (String c d, r)
      else (EmptyString, s)
  end.

(** The pattern tried at the start of [s].  [\d+] is greedy, and what
    follows it in the pattern is not a digit, so only the longest run can
    match. *)
Definition match_here (s : string) : option (string * string) :=
  match s with
  | String "["%char rest =>
      match digits_of rest with
      | (String c1 d1, String ";"%char rest2) =>
          match digits_of rest2 with
          | (String c2 d2, String "R"%char _) =>
              Some (String c1 d1, String c2 d2)
          | _ => None
          end
      | _ => None
      end
  | _ => None
  end.

(** [regex.exec(input)]: the leftmost match, as its two groups. *)
Fixpoint exec (input : string) : option (string * string) :=
  match input with
  | EmptyString => None
  | String _ rest =>
      match match_here input with
      | Some groups => Some groups
      | None => exec rest
      end
  end.

(** The Number value of a non-negative integer: the integer itself below
    2^53, otherwise the nearest integer with 53 significant bits, a tie
    going to the even one, and +Infinity from 2^1024 on. *)
Definition to_number (z : Z) : JsNumber :=
  if z <? 2 ^ 53 then Num z
  else
    let e := Z.log2 z - 52 in
    let q := z / 2 ^ e in
    let r := z mod 2 ^ e in
    let half := 2 ^ (e - 1) in
    let q' := if (half <? r) || ((r =? half) && Z.odd q) then q + 1 else q in
    let v := q' * 2 ^ e in
    if v <? 2 ^ 1024 then Num v else Infinity.

(** [parseInt(s, 10)] on a string without leading blanks or sign: the
    Number value of its leading digits, NaN when there is none.  (Past
    the 20th significant digit the language lets an implementation read
    the digits as zeros; the value of all the digits is taken here.) *)
Definition parseInt (s : string) : JsNumber :=
  match NilZero.uint_of_string (fst (digits_of s)) with
  | Some d => to_number (Z.of_uint d)
  | None => NaN
  end.

Definition settle (v : Promise) (p : Process) : Process :=
  {| rawMode := rawMode p;
     flowing := flowing p;
     listening := listening p;
     promise := match promise p with Pending => v | settled => settled end |}.

Definition tear_down (p : Process) : Process :=
  {| rawMode := false; flowing := false; listening := false;
     promise := promise p |}.

Local Open Scope eff_scope.

(** The body of the promise executor, up to the registration of the
    handler. *)
Definition getCursorPosition : Eff Process unit :=
  modify (fun p => {| rawMode := true; flowing := true;
                      listening := listening p; promise := Pending |}) ;;
  emit (Text (esc ++ "[6n")%string) ;;
  modify (fun p => {| rawMode := rawMode p; flowing := flowing p;
                      listening := true; promise := promise p |}).

(** The handler of the ['line'] event. *)
Definition on_line (input : string) : Eff Process unit :=
  (match exec input with
   | Some (g1, g2) =>
       let row := parseInt g1 in
       let column := parseInt g2 in
       modify (settle (Resolved row column))
   | None => modify (settle (Rejected "Failed to parse cursor position"))
   end) ;;
  modify tear_down.

End CursorQuery.

(** ** Vocabulary of the statements *)

(** A computation that only writes: it returns normally and leaves the
    state alone. *)
Definition writes {W} (m : Eff W unit) (w : W) (tr : list Event) : Prop :=
  m w = mkRun (Normal tt) w tr.

(** An invariant of the state kept by a computation, however it ends. *)
Definition preserves {W A} (P : W -> Prop) (m : Eff W A) : Prop :=
  forall w, P w -> P (final (m w)).

(** A run with [t] written before it. *)
Definition prepend {W A} (t : list Event) (r : Run W A) : Run W A :=
  mkRun (completion r) (final r) (t ++ written r).

(** The object still holds the console functions of [k]. *)
Definition fixed_originals (k : Console) (w : Fixed.World) : Prop :=
  Fixed.originalLog (Fixed.this w) = console_log k /\
  Fixed.originalError (Fixed.this w) = console_error k /\
  Fixed.originalWarn (Fixed.this w) = console_warn k.

Definition dynamic_originals (k : Console) (w : Dynamic.World) : Prop :=
  Dynamic.originalLog (Dynamic.this w) = console_log k /\
  Dynamic.originalError (Dynamic.this w) = console_error k /\
  Dynamic.originalWarn (Dynamic.this w) = console_warn k.

(** The console after [start()] over the native functions. *)
Definition intercepted_console : Console :=
  {| console_log := Intercepted (Native ChLog);
     console_error := Intercepted (Native ChError);
     console_warn := Intercepted (Native ChWarn) |}.

(** A burst of console calls, and what the native functions print for it. *)
Definition log_calls {K} (msgs : list (Tty * Channel * string))
  : list (Tty * Op K) :=
  map (fun m => (fst (fst m), ConsoleCall (snd (fst m)) (snd m))) msgs.

Definition log_prints (msgs : list (Tty * Channel * string)) : list Event :=
  map (fun m => Print (snd (fst m)) (snd m)) msgs.


Definition dynamic_items (tty : Tty) (sl : JsMap string) (ln : JsMap Z)
           (ks : list Key) : list (Z * string) :=
  flat_map (fun k =>
              match map_get ln k with
              | Some l =>
                  [(rows tty - l - 1,
                    js_substring (or_empty (map_get sl k)) 0
                                 (columns_or_80 tty - 1))]
              | None => []
              end) ks.

(** The layout the dynamic variant is meant to keep: both maps list the
    same keys, without repetition and in the same order, the lines are
    0, 1, ..., numLines-1 in that order, and no stored content is the
    empty string. *)
Definition laid_out (w : Dynamic.World) : Prop :=
  map_keys (Dynamic.lineNumbers (Dynamic.this w))
  = map_keys (Dynamic.statusLines (Dynamic.this w)) /\
  map_values (Dynamic.lineNumbers (Dynamic.this w))
  = zseq 0 (List.length (Dynamic.statusLines (Dynamic.this w))) /\
  NoDup (map_keys (Dynamic.statusLines (Dynamic.this w))) /\
  Forall (fun p => snd p <> EmptyString)
         (Dynamic.statusLines (Dynamic.this w)).

(** What every session keeps, empty contents or not: both maps list the
    same keys in the same order, no line is negative, and the key listed
    last sits on line numLines-1 or further from the bottom. *)
Definition reachable_layout (w : Dynamic.World) : Prop :=
  let sl := Dynamic.statusLines (Dynamic.this w) in
  let ln := Dynamic.lineNumbers (Dynamic.this w) in
  map_keys ln = map_keys sl /\
  Forall (fun p => 0 <= snd p) ln /\
  (forall d, map_keys ln <> [] ->
             exists l, map_get ln (last (map_keys ln) d) = Some l /\
                       map_size sl - 1 <= l).

(** No update of the script passes the empty string. *)
Definition nonempty_updates (calls : list (Tty * Op Key)) : Prop :=
  forall tty k c, In (tty, Update k c) calls -> c <> EmptyString.



(** The calls of a script that neither start nor stop. *)
Definition no_start_stop {K} (calls : list (Tty * Op K)) : Prop :=
  forall tty op, In (tty, op) calls -> op <> Start /\ op <> Stop.










(** What reaches the native console functions, out of a trace. *)
Definition is_print (e : Event) : bool :=
  match e with
  | Print _ _ => true
  | _ => false
  end.

Definition prints (tr : list Event) : list Event := filter is_print tr.

(** The console functions are the native ones, bare or wrapped once, and
    the object holds the native ones. *)
Definition fixed_wired (w : Fixed.World) : Prop :=
  fixed_originals native_console w /\
  (Fixed.console w = native_console \/
   Fixed.console w = intercepted_console).

Definition dynamic_wired (w : Dynamic.World) : Prop :=
  dynamic_originals native_console w /\
  (Dynamic.console w = native_console \/
   Dynamic.console w = intercepted_console).

(** Every index below [totalLines] holds a string. *)
Definition fixed_full (w : Fixed.World) : Prop :=
  List.length (Fixed.lines (Fixed.this w))
  = Z.to_nat (Fixed.totalLines (Fixed.this w)) /\
  Forall (fun v => v <> None) (Fixed.lines (Fixed.this w)).

(** The blank lines printed by [start]: the loop and the extra call. *)
Definition start_prints (tty : Tty) (n : Z) : Eff Fixed.World unit :=
  bind (for_upto n (fun _ => Fixed.console_call tty ChLog EmptyString))
       (fun _ => Fixed.console_call tty ChLog EmptyString).

(** ** Theorems *)

Lemma prefix_loop_spec (fuel : nat) (a b : string) (n i : nat) :
  (n <= i + fuel)%nat -> (i <= n)%nat ->
  let r := prefix_loop fuel a b n i in
  (i <= r <= n)%nat /\
  (forall j, (i <= j < r)%nat ->
             char_neq (String.get j a) (String.get j b) = false) /\
  (r = n \/ char_neq (String.get r a) (String.get r b) = true).
Proof.
  revert i. induction fuel as [|fuel IH]; intros i Hfuel Hi;
    cbv zeta; cbn [prefix_loop].
  - split; [lia | split; [intros j Hj; lia | left; lia]].
  - destruct (Nat.ltb_spec i n) as [Hlt|Hge]; cbv zeta iota.
    + destruct (char_neq (String.get i a) (String.get i b)) eqn:E;
        cbv zeta iota.
      * split; [lia | split; [intros j Hj; lia | right; exact E]].
      * specialize (IH (S i) ltac:(lia) ltac:(lia)). cbv zeta in IH.
        destruct IH as (Hb & Heq & Hstop).
        split; [lia | split; [ | exact Hstop]].
        intros j Hj. destruct (Nat.eq_dec j i) as [->|Hne]; auto.
        apply Heq. lia.
    + split; [lia | split; [intros j Hj; lia | left; lia]].
Qed.

Lemma char_neq_false (x y : option ascii) : char_neq x y = false <-> x = y.
Proof.
  destruct x as [c|], y as [d|]; cbn; split; intro H;
    try discriminate; try reflexivity.
  - apply negb_false_iff, Ascii.eqb_eq in H. now subst.
  - injection H as ->. now rewrite Ascii.eqb_refl.
Qed.

Lemma char_neq_true (x y : option ascii) : char_neq x y = true <-> x <> y.
Proof.
  split.
  - intros H E. apply char_neq_false in E. congruence.
  - intro H. destruct (char_neq x y) eqn:E; [reflexivity|].
    apply char_neq_false in E. contradiction.
Qed.

Lemma get_in_range (s : string) (i : nat) :
  (i < String.length s)%nat -> String.get i s <> None.
Proof.
  revert i. induction s as [|c s IH]; intros i Hi; cbn in *; [lia|].
  destruct i; [discriminate|]. apply IH. lia.
Qed.

(** C1. getCommonPrefixLength(a, b) is the length of the longest common
    leading substring: it is at most min(len a, len b); the characters of a
    and b before that index are pairwise equal (so the two prefixes of that
    length are the same string); either it equals min(len a, len b) or the
    characters at that index differ; no longer common prefix exists.  On
    ("abcxy","abcde") it is 3, on ("","x") it is 0, on ("abc","abc") it is
    3. *)
Theorem getCommonPrefixLength_longest_common_prefix :
  (forall a b : string,
      let r := getCommonPrefixLength a b in
      let n := Nat.min (String.length a) (String.length b) in
      (r <= n)%nat /\
      (forall j, (j < r)%nat ->
                 String.get j a = String.get j b /\ String.get j a <> None) /\
      String.substring 0 r a = String.substring 0 r b /\
      (r = n \/ String.get r a <> String.get r b) /\
      (forall m, (m <= n)%nat ->
                 (forall j, (j < m)%nat -> String.get j a = String.get j b) ->
                 (m <= r)%nat)) /\
  getCommonPrefixLength "abcxy" "abcde" = 3%nat /\
  getCommonPrefixLength "" "x" = 0%nat /\
  getCommonPrefixLength "abc" "abc" = 3%nat.
Proof.
  split; [|repeat split; reflexivity].
  intros a b r n.
  destruct (prefix_loop_spec n a b n 0 ltac:(lia) ltac:(lia))
    as (Hb & Heq & Hstop).
  fold n in Hb, Heq, Hstop. change (prefix_loop n a b n 0) with r in *.
  assert (Hpre : forall j, (j < r)%nat -> String.get j a = String.get j b).
  { intros j Hj. apply char_neq_false, Heq. lia. }
  split; [lia|]. split; [|split; [|split]].
  - intros j Hj. split; [auto|]. apply get_in_range. lia.
  - apply String.get_correct. intro p.
    destruct (Nat.lt_ge_cases p r) as [Hp|Hp].
    + rewrite !String.substring_correct1 by exact Hp.
      rewrite Nat.add_0_r. auto.
    + now rewrite !String.substring_correct2 by exact Hp.
  - destruct Hstop as [->|Hne]; [now left|right].
    now apply char_neq_true.
  - intros m Hm Hall.
    destruct Hstop as [->|Hne]; [exact Hm|].
    apply char_neq_true in Hne.
    destruct (Nat.lt_ge_cases r m) as [Hlt|Hge]; [|exact Hge].
    exfalso. apply Hne, Hall, Hlt.
Qed.

(** ** Reasoning about computations *)

Section EffLemmas.
Context {W : Type}.

Lemma writes_bind (m : Eff W unit) (k : Eff W unit) w t1 t2 :
  writes m w t1 -> writes k w t2 -> writes (bind m (fun _ => k)) w (t1 ++ t2).
Proof.
  unfold writes, bind. intros -> . cbn. intros ->. reflexivity.
Qed.

Lemma for_from_writes (body : Z -> Eff W unit) (g : Z -> list Event) w :
  (forall i, writes (body i) w (g i)) ->
  forall count start,
    writes (for_from body start count) w (flat_map g (zseq start count)).
Proof.
  intros Hbody. induction count as [|c IH]; intro start; cbn.
  - reflexivity.
  - apply writes_bind; [apply Hbody | apply IH].
Qed.

Lemma for_down_from_writes (body : Z -> Eff W unit) (g : Z -> list Event) w :
  (forall i, writes (body i) w (g i)) ->
  forall left, writes (for_down_from body left) w (flat_map g (zdown left)).
Proof.
  intros Hbody. induction left as [|l IH]; cbn.
  - reflexivity.
  - apply writes_bind; [apply Hbody | apply IH].
Qed.

Lemma for_of_writes {X} (body : X -> Eff W unit) (g : X -> list Event) w :
  (forall x, writes (body x) w (g x)) ->
  forall xs, writes (for_of xs body) w (flat_map g xs).
Proof.
  intros Hbody. induction xs as [|x xs IH]; cbn.
  - reflexivity.
  - apply writes_bind; [apply Hbody | apply IH].
Qed.

Lemma preserves_ret {A} (P : W -> Prop) (a : A) : preserves P (ret a).
Proof. intros w H. exact H. Qed.

Lemma preserves_throw {A} (P : W -> Prop) msg : preserves P (@throw W A msg).
Proof. intros w H. exact H. Qed.

Lemma preserves_emit (P : W -> Prop) e : preserves P (emit e).
Proof. intros w H. exact H. Qed.

Lemma preserves_gets {A} (P : W -> Prop) (f : W -> A) : preserves P (gets f).
Proof. intros w H. exact H. Qed.

Lemma preserves_modify (P : W -> Prop) (f : W -> W) :
  (forall w, P w -> P (f w)) -> preserves P (modify f).
Proof. intros Hf w H. apply Hf, H. Qed.

Lemma preserves_bind {A B} (P : W -> Prop) (m : Eff W A) (f : A -> Eff W B) :
  preserves P m -> (forall a, preserves P (f a)) -> preserves P (bind m f).
Proof.
  intros Hm Hf w H. unfold bind.
  destruct (completion (m w)) eqn:E; cbn.
  - apply Hf, Hm, H.
  - apply Hm, H.
Qed.

Lemma preserves_when (P : W -> Prop) (b : bool) (m : Eff W unit) :
  preserves P m -> preserves P (when b m).
Proof. destruct b; cbn; auto using preserves_ret. Qed.

Lemma preserves_for_from (P : W -> Prop) (body : Z -> Eff W unit) :
  (forall i, preserves P (body i)) ->
  forall count start, preserves P (for_from body start count).
Proof.
  intros Hb. induction count as [|c IH]; intro start; cbn.
  - apply preserves_ret.
  - apply preserves_bind; auto.
Qed.

Lemma preserves_for_down_from (P : W -> Prop) (body : Z -> Eff W unit) :
  (forall i, preserves P (body i)) ->
  forall left, preserves P (for_down_from body left).
Proof.
  intros Hb. induction left as [|l IH]; cbn.
  - apply preserves_ret.
  - apply preserves_bind; auto.
Qed.

Lemma preserves_for_of {X} (P : W -> Prop) (body : X -> Eff W unit) :
  (forall x, preserves P (body x)) ->
  forall xs, preserves P (for_of xs body).
Proof.
  intros Hb. induction xs as [|x xs IH]; cbn.
  - apply preserves_ret.
  - apply preserves_bind; auto.
Qed.
End EffLemmas.

Create HintDb keeps.
#[export] Hint Resolve preserves_ret preserves_throw preserves_emit
  preserves_gets preserves_when : keeps.

(** Walks down a method body, leaving only the state updates to check. *)
Ltac keep_step :=
  match goal with
  | |- preserves _ (bind _ _) => apply preserves_bind; [|intro]
  | |- preserves _ (for_upto _ _) => apply preserves_for_from; intro
  | |- preserves _ (for_down _ _) => apply preserves_for_down_from; intro
  | |- preserves _ (for_of _ _) => apply preserves_for_of; intro
  | |- preserves _ (when _ _) => apply preserves_when
  | |- preserves _ (modify _) => apply preserves_modify; intros ? ?
  | |- preserves _ (if ?b then _ else _) => destruct b
  | |- preserves _ (match ?x with Some _ => _ | None => _ end) => destruct x
  | |- preserves _ (match ?x with (_, _) => _ end) => destruct x
  | |- preserves _ _ => solve [auto with keeps]
  end.

Ltac keeps := repeat keep_step.

(** ** The fixed-size variant *)

Lemma fixed_update_guard (tty : Tty) (w : Fixed.World) i content :
  i < 0 \/ i >= Fixed.totalLines (Fixed.this w) ->
  Fixed.update tty i content w
  = mkRun (Thrown "Line index out of range") w [].
Proof.
  intros Hi. unfold Fixed.update, bind, gets. cbn.
  destruct (i <? 0) eqn:E1; cbn; [reflexivity|].
  destruct (i >=? Fixed.totalLines (Fixed.this w)) eqn:E2; cbn;
    [reflexivity|].
  apply Z.ltb_ge in E1. rewrite Z.geb_leb in E2. apply Z.leb_gt in E2.
  lia.
Qed.

(** C6. In the fixed-size variant an update with line index i < 0 or
    i >= totalLines throws ("Line index out of range") before anything
    else happens: nothing is written to the terminal and the whole state,
    stored lines and dirty flag included, is the state before the call.
    update(-1, "x") and update(totalLines, "x") are two such calls. *)
Theorem update_out_of_range_rejected (tty : Tty) (w : Fixed.World) :
  (forall i content,
      i < 0 \/ i >= Fixed.totalLines (Fixed.this w) ->
      Fixed.update tty i content w
      = mkRun (Thrown "Line index out of range") w []) /\
  Fixed.update tty (-1) "x" w
  = mkRun (Thrown "Line index out of range") w [] /\
  Fixed.update tty (Fixed.totalLines (Fixed.this w)) "x" w
  = mkRun (Thrown "Line index out of range") w [].
Proof.
  split; [intros i content; apply fixed_update_guard|].
  split; apply fixed_update_guard; lia.
Qed.

Lemma update_out_of_range_rejected_witness :
  let tty := {| rows := 24; columns := Some 80 |} in
  let w := Fixed.constructor 3 native_console in
  (7 < 0 \/ 7 >= Fixed.totalLines (Fixed.this w)) /\
  Fixed.update tty 7 "late" w
  = mkRun (Thrown "Line index out of range") w [].
Proof.
  intros tty w.
  assert (H : 7 < 0 \/ 7 >= Fixed.totalLines (Fixed.this w))
    by (right; cbn; lia).
  split; [exact H|].
  exact (proj1 (update_out_of_range_rejected tty w) 7 "late"%string H).
Defined.

(** ** Restoring the console *)

Lemma append_empty_r (s : string) : (s ++ "")%string = s.
Proof. induction s as [|c s IH]; cbn; [reflexivity | now rewrite IH]. Qed.

Lemma fixed_invoke_keeps_originals tty k f args :
  preserves (fixed_originals k) (Fixed.invoke tty f args).
Proof.
  induction f as [c|o IH]; cbn [Fixed.invoke]; [auto with keeps|].
  unfold Fixed.clearLines, Fixed.moveCursorToLine, Fixed.clearLine.
  keeps; auto.
Qed.

Lemma fixed_perform_keeps_originals tty k op :
  preserves (fixed_originals k) (Fixed.perform tty op).
Proof.
  pose proof (fixed_invoke_keeps_originals tty k) as Hinv.
  destruct op; cbn [Fixed.perform];
    unfold Fixed.start, Fixed.update, Fixed.stop, Fixed.console_call,
      Fixed.redrawAllLines, Fixed.updateSingleLine, Fixed.writeStatusLine,
      Fixed.moveCursorToLine, Fixed.moveCursorToBottom, Fixed.clearLine;
    keeps; auto.
Qed.

Lemma fixed_session_keeps_originals k calls :
  preserves (fixed_originals k) (Fixed.session calls).
Proof.
  induction calls as [|[tty op] rest IH]; cbn [Fixed.session].
  - apply preserves_ret.
  - apply preserves_bind; [apply fixed_perform_keeps_originals | auto].
Qed.

Lemma dynamic_invoke_keeps_originals tty k f args :
  preserves (dynamic_originals k) (Dynamic.invoke tty f args).
Proof.
  induction f as [c|o IH]; cbn [Dynamic.invoke]; [auto with keeps|].
  unfold Dynamic.clearLines, Dynamic.moveCursorToTop, Dynamic.numLines,
    Dynamic.moveCursorToLine, Dynamic.clearLine.
  keeps; auto.
Qed.

Lemma dynamic_perform_keeps_originals tty k op :
  preserves (dynamic_originals k) (Dynamic.perform tty op).
Proof.
  pose proof (dynamic_invoke_keeps_originals tty k) as Hinv.
  destruct op; cbn [Dynamic.perform];
    unfold Dynamic.start, Dynamic.update, Dynamic.update_prepare,
      Dynamic.stop, Dynamic.console_call, Dynamic.redrawAllLines,
      Dynamic.updateSingleLine, Dynamic.writeStatusHere,
      Dynamic.moveCursorToTop, Dynamic.moveCursorToLine,
      Dynamic.moveCursorToBottom, Dynamic.clearLine, Dynamic.numLines,
      Dynamic.keys;
    keeps; auto.
Qed.

Lemma dynamic_session_keeps_originals k calls :
  preserves (dynamic_originals k) (Dynamic.session calls).
Proof.
  induction calls as [|[tty op] rest IH]; cbn [Dynamic.session].
  - apply preserves_ret.
  - apply preserves_bind; [apply dynamic_perform_keeps_originals | auto].
Qed.

(** C9. stop() always returns normally, in every state of either variant
    (started or not, dirty or not).  It rebinds console.log, console.error
    and console.warn to the functions the constructor captured, writes
    exactly one sequence, the cursor move ESC[rows;1H to the bottom row,
    column 1, and no erase sequence, and leaves the object itself (stored
    entries, line numbers, dirty flag) as it was.  Whatever calls were made
    since construction, the console after stop() is the console the object
    was constructed under. *)
Theorem stop_restores_console_and_parks_cursor :
  (forall tty (w : Fixed.World),
      Fixed.stop tty w
      = mkRun (Normal tt)
              {| Fixed.this := Fixed.this w;
                 Fixed.console :=
                   {| console_log := Fixed.originalLog (Fixed.this w);
                      console_error := Fixed.originalError (Fixed.this w);
                      console_warn := Fixed.originalWarn (Fixed.this w) |} |}
              [CursorTo (rows tty) 1]) /\
  (forall tty (w : Dynamic.World),
      Dynamic.stop tty w
      = mkRun (Normal tt)
              {| Dynamic.this := Dynamic.this w;
                 Dynamic.console :=
                   {| console_log := Dynamic.originalLog (Dynamic.this w);
                      console_error :=
                        Dynamic.originalError (Dynamic.this w);
                      console_warn :=
                        Dynamic.originalWarn (Dynamic.this w) |} |}
              [CursorTo (rows tty) 1]) /\
  (forall tty,
      wire_all [CursorTo (rows tty) 1]
      = (esc ++ "[" ++ decimal (rows tty) ++ ";1H")%string) /\
  (forall n k calls tty,
      Fixed.console
        (final (Fixed.stop tty
                  (final (Fixed.session calls (Fixed.constructor n k)))))
      = k) /\
  (forall k calls tty,
      Dynamic.console
        (final (Dynamic.stop tty
                  (final (Dynamic.session calls (Dynamic.constructor k)))))
      = k).
Proof.
  split; [reflexivity|]. split; [reflexivity|]. split; [|split].
  - intro tty. cbn. now rewrite append_empty_r.
  - intros n k calls tty.
    destruct (fixed_session_keeps_originals k calls (Fixed.constructor n k))
      as (H1 & H2 & H3); [repeat split|].
    cbn. rewrite H1, H2, H3. now destruct k.
  - intros k calls tty.
    destruct (dynamic_session_keeps_originals k calls (Dynamic.constructor k))
      as (H1 & H2 & H3); [repeat split|].
    cbn. rewrite H1, H2, H3. now destruct k.
Qed.

(** ** Running a method body *)

Section BindLemmas.
Context {W : Type}.

Lemma bind_run {A B} (m : Eff W A) (f : A -> Eff W B) w a w' t :
  m w = mkRun (Normal a) w' t ->
  bind m f w = prepend t (f a w').
Proof. unfold bind. intros ->. reflexivity. Qed.

Lemma bind_gets {A B} (g : W -> A) (f : A -> Eff W B) w :
  bind (gets g) f w = f (g w) w.
Proof.
  rewrite (bind_run _ _ w (g w) w []) by reflexivity.
  unfold prepend. now destruct (f (g w) w).
Qed.

Lemma bind_modify {B} (g : W -> W) (f : unit -> Eff W B) w :
  bind (modify g) f w = f tt (g w).
Proof.
  rewrite (bind_run _ _ w tt (g w) []) by reflexivity.
  unfold prepend. now destruct (f tt (g w)).
Qed.

Lemma bind_writes {B} (m : Eff W unit) (f : unit -> Eff W B) w t :
  writes m w t ->
  bind m f w = prepend t (f tt w).
Proof. intro H. now apply bind_run. Qed.

End BindLemmas.

Lemma flat_map_newlines {X} (xs : list X) :
  flat_map (fun _ => [Newline]) xs = repeat Newline (List.length xs).
Proof. induction xs as [|x xs IH]; cbn; [reflexivity | now rewrite IH]. Qed.

Lemma zseq_length start count : List.length (zseq start count) = count.
Proof.
  revert start. induction count as [|c IH]; intro start; cbn;
    [reflexivity | now rewrite IH].
Qed.

Lemma zdown_length count : List.length (zdown count) = count.
Proof. induction count as [|c IH]; cbn; [reflexivity | now rewrite IH]. Qed.

(** *** Fixed-size variant *)

Lemma fixed_clearLines_run tty w :
  writes (Fixed.clearLines tty) w
         (Fixed.clear_trace tty (Fixed.totalLines (Fixed.this w))).
Proof.
  unfold writes, Fixed.clearLines. rewrite bind_gets.
  apply for_from_writes. intro i. reflexivity.
Qed.

Lemma fixed_updateSingleLine_run tty i w :
  writes (Fixed.updateSingleLine tty i) w
         (Fixed.draw_line tty (Fixed.lines (Fixed.this w)) i).
Proof. reflexivity. Qed.

Lemma fixed_redrawAllLines_run tty w :
  Fixed.redrawAllLines tty w
  = mkRun (Normal tt) (Fixed.set_dirty false w)
          (Fixed.redraw_trace tty (Fixed.lines (Fixed.this w))
                              (Fixed.totalLines (Fixed.this w))).
Proof.
  unfold Fixed.redrawAllLines. rewrite bind_gets.
  set (n := Fixed.totalLines (Fixed.this w)).
  rewrite (bind_writes _ _ w (repeat Newline (Z.to_nat n))).
  2:{ unfold for_upto.
      rewrite <- (zseq_length 0 (Z.to_nat n)) at 2.
      rewrite <- flat_map_newlines.
      apply for_from_writes. intro i. reflexivity. }
  rewrite (bind_writes _ _ w
             (flat_map (Fixed.draw_line tty (Fixed.lines (Fixed.this w)))
                       (zseq 0 (Z.to_nat n)))).
  2:{ apply for_from_writes. intro i. reflexivity. }
  unfold prepend, Fixed.redraw_trace. cbn. now rewrite app_nil_r.
Qed.

Lemma fixed_update_run tty i content w :
  0 <= i < Fixed.totalLines (Fixed.this w) ->
  let w' := Fixed.set_lines
              (array_put (Fixed.lines (Fixed.this w)) (Z.to_nat i) content)
              w in
  Fixed.update tty i content w
  = if Fixed.dirty (Fixed.this w) then
      mkRun (Normal tt) (Fixed.set_dirty false w')
            (Fixed.redraw_trace tty (Fixed.lines (Fixed.this w'))
                                (Fixed.totalLines (Fixed.this w)))
    else
      mkRun (Normal tt) w' (Fixed.draw_line tty (Fixed.lines (Fixed.this w')) i).
Proof.
  intros Hi w'. unfold Fixed.update. rewrite bind_gets.
  replace (i <? 0) with false by (symmetry; apply Z.ltb_ge; lia).
  replace (i >=? Fixed.totalLines (Fixed.this w)) with false
    by (symmetry; rewrite Z.geb_leb; apply Z.leb_gt; lia).
  cbn [orb]. rewrite bind_modify, bind_gets. fold w'.
  change (Fixed.dirty (Fixed.this w')) with (Fixed.dirty (Fixed.this w)).
  destruct (Fixed.dirty (Fixed.this w)).
  - now rewrite fixed_redrawAllLines_run.
  - reflexivity.
Qed.

(** *** Dynamic keyed variant *)

Lemma dynamic_updateSingleLine_run tty k offset w :
  writes (Dynamic.updateSingleLine tty k offset) w
         (Dynamic.patch_trace tty (Dynamic.statusLines (Dynamic.this w))
                              (Dynamic.lineNumbers (Dynamic.this w)) k offset).
Proof.
  unfold writes, Dynamic.updateSingleLine, Dynamic.patch_trace.
  rewrite bind_gets.
  destruct (map_get (Dynamic.lineNumbers (Dynamic.this w)) k) as [l|];
    [|reflexivity].
  unfold Dynamic.writeStatusHere, Dynamic.moveCursorToLine,
    Dynamic.getTerminalRow, Dynamic.clearLine.
  destruct (offset =? 0); destruct (offset >? 0); reflexivity.
Qed.

Lemma dynamic_draw_key_patch tty sl ln k :
  Dynamic.patch_trace tty sl ln k 0 = Dynamic.draw_key tty sl ln k.
Proof.
  unfold Dynamic.patch_trace, Dynamic.draw_key.
  now destruct (map_get ln k).
Qed.

Lemma dynamic_moveCursorToTop_run tty w :
  writes (Dynamic.moveCursorToTop tty) w
         [CursorTo
            (rows tty
             - (map_size (Dynamic.statusLines (Dynamic.this w)) - 1) - 1) 1].
Proof. reflexivity. Qed.

Lemma dynamic_redrawAllLines_run tty fromThisSpot w :
  Dynamic.redrawAllLines tty fromThisSpot w
  = mkRun (Normal tt) (Dynamic.set_dirty false w)
          (Dynamic.redraw_trace tty fromThisSpot
             (Dynamic.statusLines (Dynamic.this w))
             (Dynamic.lineNumbers (Dynamic.this w))).
Proof.
  unfold Dynamic.redrawAllLines, Dynamic.redraw_trace.
  set (sl := Dynamic.statusLines (Dynamic.this w)).
  set (ln := Dynamic.lineNumbers (Dynamic.this w)).
  rewrite (bind_writes _ _ w
             (if fromThisSpot then []
              else [CursorTo (rows tty - (map_size sl - 1) - 1) 1])).
  2:{ destruct fromThisSpot; reflexivity. }
  unfold Dynamic.numLines. rewrite bind_gets. fold sl.
  rewrite (bind_writes _ _ w (repeat Newline (Z.to_nat (map_size sl)))).
  2:{ unfold for_down.
      rewrite <- (zdown_length (Z.to_nat (map_size sl))) at 2.
      rewrite <- flat_map_newlines.
      apply for_down_from_writes. intro i. reflexivity. }
  unfold Dynamic.keys. rewrite bind_gets. fold ln.
  rewrite (bind_writes _ _ w (flat_map (Dynamic.draw_key tty sl ln)
                                       (map_keys ln))).
  2:{ apply for_of_writes. intro k. rewrite <- dynamic_draw_key_patch.
      apply dynamic_updateSingleLine_run. }
  unfold prepend. cbn. now rewrite app_nil_r.
Qed.

Lemma dynamic_clearLines_run tty w :
  writes (Dynamic.clearLines tty) w
         (flat_map (fun i => [CursorTo (rows tty - i - 1) 1; EraseLine])
                   (zdown (Z.to_nat
                             (map_size
                                (Dynamic.statusLines (Dynamic.this w)))))).
Proof.
  unfold writes, Dynamic.clearLines, Dynamic.numLines. rewrite bind_gets.
  apply for_down_from_writes. intro i. reflexivity.
Qed.

(** The three ways through [update]. *)

Lemma dynamic_update_skipped tty k content w :
  Dynamic.skipped w k content = true ->
  Dynamic.update tty k content w = mkRun (Normal tt) w [].
Proof.
  unfold Dynamic.skipped, Dynamic.update, Dynamic.update_prepare.
  intro H. apply andb_prop in H as [Ht He].
  rewrite (bind_run _ _ w None w []); [reflexivity|].
  rewrite bind_gets, Ht, He. reflexivity.
Qed.

Lemma dynamic_update_existing tty k content w :
  let prev := map_get (Dynamic.statusLines (Dynamic.this w)) k in
  truthy prev = true ->
  String.eqb (or_empty prev) content = false ->
  let sl' := map_set (Dynamic.statusLines (Dynamic.this w)) k content in
  let ln := Dynamic.lineNumbers (Dynamic.this w) in
  let w' := Dynamic.set_statusLines sl' w in
  let offset := Z.of_nat (getCommonPrefixLength (or_empty prev) content) in
  Dynamic.update tty k content w
  = if Dynamic.dirty (Dynamic.this w) then
      mkRun (Normal tt) (Dynamic.set_dirty false w')
            (Dynamic.redraw_trace tty true sl' ln ++ [CursorTo (rows tty) 1])
    else
      mkRun (Normal tt) w'
            (Dynamic.patch_trace tty sl' ln k offset
             ++ [CursorTo (rows tty) 1]).
Proof.
  intros prev Ht He sl' ln w' offset.
  unfold Dynamic.update, Dynamic.update_prepare.
  rewrite (bind_run _ _ w (Some (true, offset)) w []).
  2:{ rewrite bind_gets. fold prev. rewrite Ht, He. reflexivity. }
  rewrite bind_modify, bind_gets. fold sl' w'.
  change (Dynamic.dirty (Dynamic.this w'))
    with (Dynamic.dirty (Dynamic.this w)).
  destruct (Dynamic.dirty (Dynamic.this w)).
  - rewrite (bind_run _ _ w' tt (Dynamic.set_dirty false w')
               (Dynamic.redraw_trace tty true sl' ln))
      by apply dynamic_redrawAllLines_run.
    reflexivity.
  - rewrite (bind_writes _ _ w' (Dynamic.patch_trace tty sl' ln k offset))
      by apply dynamic_updateSingleLine_run.
    reflexivity.
Qed.

Lemma dynamic_update_new tty k content w :
  truthy (map_get (Dynamic.statusLines (Dynamic.this w)) k) = false ->
  let sl := Dynamic.statusLines (Dynamic.this w) in
  let ln := Dynamic.lineNumbers (Dynamic.this w) in
  let sl' := map_set sl k content in
  let ln' := map_set ln k (map_size sl) in
  Dynamic.update tty k content w
  = mkRun (Normal tt)
          (Dynamic.set_dirty false
             (Dynamic.set_statusLines sl' (Dynamic.set_lineNumbers ln' w)))
          ((if Dynamic.dirty (Dynamic.this w)
            then Dynamic.redraw_trace tty true sl ln else [])
           ++ [CursorTo (rows tty) 1; Newline]
           ++ Dynamic.redraw_trace tty false sl' ln'
           ++ [CursorTo (rows tty) 1]).
Proof.
  intros Ht sl ln sl' ln'.
  unfold Dynamic.update, Dynamic.update_prepare.
  set (w1 := Dynamic.set_dirty true (Dynamic.set_lineNumbers ln' w)).
  rewrite (bind_run _ _ w (Some (false, 0)) w1
             ((if Dynamic.dirty (Dynamic.this w)
               then Dynamic.redraw_trace tty true sl ln else [])
              ++ [CursorTo (rows tty) 1; Newline])).
  2:{ rewrite bind_gets, Ht, bind_gets.
      destruct (Dynamic.dirty (Dynamic.this w)) eqn:Hd; cbn [when].
      - rewrite (bind_run _ _ w tt (Dynamic.set_dirty false w)
                   (Dynamic.redraw_trace tty true sl ln))
          by apply dynamic_redrawAllLines_run.
        unfold Dynamic.numLines. rewrite bind_gets, bind_modify.
        reflexivity.
      - rewrite (bind_writes _ _ w []) by reflexivity.
        unfold Dynamic.numLines. rewrite bind_gets, bind_modify.
        reflexivity. }
  rewrite bind_modify, bind_gets.
  cbn [Dynamic.dirty Dynamic.this Dynamic.set_statusLines w1
                     Dynamic.set_dirty].
  rewrite (bind_run _ _ _ tt _ _ (dynamic_redrawAllLines_run _ _ _)).
  unfold prepend. cbn. rewrite <- !app_assoc. reflexivity.
Qed.

(** ** Maps and arrays *)

Lemma key_eqb_refl (k : Key) : key_eqb k k = true.
Proof. destruct k; cbn; [apply Z.eqb_refl | apply String.eqb_refl]. Qed.

Lemma key_eqb_eq (a b : Key) : key_eqb a b = true <-> a = b.
Proof.
  destruct a, b; cbn; split; intro H; try discriminate.
  - apply Z.eqb_eq in H. now subst.
  - injection H as ->. apply Z.eqb_refl.
  - apply String.eqb_eq in H. now subst.
  - injection H as ->. apply String.eqb_refl.
Qed.

Lemma map_get_set_same {V} (m : JsMap V) k v :
  map_get (map_set m k v) k = Some v.
Proof.
  induction m as [|[k' v'] m IH]; cbn.
  - now rewrite key_eqb_refl.
  - destruct (key_eqb k' k) eqn:E; cbn; rewrite E; [reflexivity | exact IH].
Qed.

Lemma map_get_set_other {V} (m : JsMap V) k k' v :
  k <> k' -> map_get (map_set m k v) k' = map_get m k'.
Proof.
  intro Hne. induction m as [|[k0 v0] m IH]; cbn.
  - destruct (key_eqb k k') eqn:E; [|reflexivity].
    apply key_eqb_eq in E. contradiction.
  - destruct (key_eqb k0 k) eqn:E; cbn.
    + destruct (key_eqb k0 k') eqn:E'; [|reflexivity].
      apply key_eqb_eq in E, E'. congruence.
    + now rewrite IH.
Qed.

Lemma array_put_same (l : JsArray) (i : nat) (v : string) :
  nth_error l i = Some (Some v) -> array_put l i v = l.
Proof.
  revert i. induction l as [|x l IH]; intros [|i] H; cbn in *;
    try discriminate.
  - now injection H as ->.
  - now rewrite IH.
Qed.

Lemma array_get_put_same (l : JsArray) (i : Z) (v : string) :
  0 <= i -> array_get (array_put l (Z.to_nat i) v) i = Some v.
Proof.
  intro Hi. unfold array_get.
  replace (i <? 0) with false by (symmetry; apply Z.ltb_ge; lia).
  generalize (Z.to_nat i). clear. intro n. revert l.
  induction n as [|n IH]; intros [|x l]; cbn; auto.
Qed.

Lemma truthy_some (v : option string) :
  truthy v = true -> v = Some (or_empty v) /\ or_empty v <> EmptyString.
Proof.
  unfold or_empty. destruct v as [s|]; cbn; [|discriminate].
  intro H. rewrite H. split; [reflexivity|].
  intros ->. discriminate.
Qed.

Lemma truthy_nonempty (s : string) : s <> EmptyString -> truthy (Some s) = true.
Proof. destruct s; cbn; [contradiction | reflexivity]. Qed.

Lemma or_empty_nonempty (s : string) :
  s <> EmptyString -> or_empty (Some s) = s.
Proof. intro H. unfold or_empty. now rewrite (truthy_nonempty s H). Qed.

Lemma dynamic_skipped_iff w k c :
  Dynamic.skipped w k c = true <->
  map_get (Dynamic.statusLines (Dynamic.this w)) k = Some c /\
  c <> EmptyString.
Proof.
  unfold Dynamic.skipped. split.
  - intro H. apply andb_prop in H as [Ht He].
    apply truthy_some in Ht as [Hs Hn]. apply String.eqb_eq in He.
    now rewrite <- He.
  - intros [Hs Hn]. rewrite Hs, truthy_nonempty, or_empty_nonempty by exact Hn.
    now rewrite String.eqb_refl.
Qed.

(** After [update(key, content)] the entry of [key] holds [content], whole. *)
Lemma dynamic_update_stores tty k c w :
  map_get
    (Dynamic.statusLines (Dynamic.this (final (Dynamic.update tty k c w)))) k
  = Some c.
Proof.
  destruct (Dynamic.skipped w k c) eqn:Hs.
  - rewrite dynamic_update_skipped by exact Hs. cbn.
    now apply dynamic_skipped_iff in Hs.
  - destruct (truthy (map_get (Dynamic.statusLines (Dynamic.this w)) k))
      eqn:Ht.
    + unfold Dynamic.skipped in Hs. rewrite Ht in Hs. cbn in Hs.
      rewrite (dynamic_update_existing tty k c w Ht Hs).
      destruct (Dynamic.dirty (Dynamic.this w)); cbn;
        apply map_get_set_same.
    + rewrite (dynamic_update_new tty k c w Ht). cbn.
      apply map_get_set_same.
Qed.

(** ** Updating with the stored content *)

(** C2, as the code has it.  In the dynamic keyed variant, an update whose
    content is a non-empty string equal to the stored content of the key
    returns at once: nothing is written and the state is unchanged; hence
    of two successive update(k, c) with non-empty c the second writes
    nothing.  The fixed-size variant has no such test: an in-range update
    with the content already stored leaves the stored lines as they are
    but renders again, the whole block when the flag is set and the one
    line otherwise. *)
Theorem update_with_stored_content :
  (forall tty w k c,
      c <> EmptyString ->
      map_get (Dynamic.statusLines (Dynamic.this w)) k = Some c ->
      Dynamic.update tty k c w = mkRun (Normal tt) w []) /\
  (forall tty tty' w k c,
      c <> EmptyString ->
      let w1 := final (Dynamic.update tty k c w) in
      Dynamic.update tty' k c w1 = mkRun (Normal tt) w1 []) /\
  (forall tty w i c,
      0 <= i < Fixed.totalLines (Fixed.this w) ->
      nth_error (Fixed.lines (Fixed.this w)) (Z.to_nat i) = Some (Some c) ->
      Fixed.update tty i c w
      = if Fixed.dirty (Fixed.this w) then
          mkRun (Normal tt) (Fixed.set_dirty false w)
                (Fixed.redraw_trace tty (Fixed.lines (Fixed.this w))
                                    (Fixed.totalLines (Fixed.this w)))
        else
          mkRun (Normal tt) w
                (Fixed.draw_line tty (Fixed.lines (Fixed.this w)) i)).
Proof.
  assert (Hskip : forall tty w k c,
             c <> EmptyString ->
             map_get (Dynamic.statusLines (Dynamic.this w)) k = Some c ->
             Dynamic.update tty k c w = mkRun (Normal tt) w []).
  { intros tty w k c Hc Hs. apply dynamic_update_skipped.
    now apply dynamic_skipped_iff. }
  split; [exact Hskip|]. split.
  - intros tty tty' w k c Hc w1. apply Hskip; [exact Hc|].
    apply dynamic_update_stores.
  - intros tty w i c Hi Hs.
    rewrite (fixed_update_run tty i c w Hi).
    rewrite (array_put_same _ _ _ Hs).
    destruct w as [[l n d o1 o2 o3] k]. reflexivity.
Qed.

Lemma update_with_stored_content_witness :
  let tty := {| rows := 24; columns := None |} in
  let d := final (Dynamic.update tty (KNum 1) "busy"
                    (Dynamic.constructor native_console)) in
  let f := final (Fixed.session [(tty, Start); (tty, Update 1 "busy")]
                    (Fixed.constructor 2 native_console)) in
  Dynamic.update tty (KNum 1) "busy" d = mkRun (Normal tt) d [] /\
  Fixed.update tty 1 "busy" f
  = mkRun (Normal tt) f [CursorTo 22 1; EraseLine; Text "busy"].
Proof.
  intros tty d f.
  destruct update_with_stored_content as (Hd & _ & Hf).
  split.
  - exact (Hd tty d (KNum 1) "busy"%string ltac:(discriminate) eq_refl).
  - assert (Hi : 0 <= 1 < Fixed.totalLines (Fixed.this f))
      by (change (0 <= 1 < 2); lia).
    exact (Hf tty f 1 "busy"%string Hi eq_refl).
Defined.

(** C2 as stated fails.  Fixed-size variant: line 0 already holds "a" and
    update(0, "a") still writes a cursor move, an erase and the text.
    Dynamic variant: the key already holds the empty string and
    update(k, "") writes again and moves the key to another line. *)
Lemma update_with_stored_content_not_noop :
  let tty := {| rows := 24; columns := Some 80 |} in
  let f := final (Fixed.session [(tty, Start); (tty, Update 0 "a")]
                    (Fixed.constructor 1 native_console)) in
  let d := final (Dynamic.session [(tty, Start); (tty, Update (KStr "k") "")]
                    (Dynamic.constructor native_console)) in
  (array_get (Fixed.lines (Fixed.this f)) 0 = Some "a"%string /\
   written (Fixed.update tty 0 "a" f)
   = [CursorTo 23 1; EraseLine; Text "a"] /\
   written (Fixed.update tty 0 "a" f) <> []) /\
  (map_get (Dynamic.statusLines (Dynamic.this d)) (KStr "k")
   = Some EmptyString /\
   written (Dynamic.update tty (KStr "k") "" d) <> [] /\
   final (Dynamic.update tty (KStr "k") "" d) <> d).
Proof.
  intros tty f d. split; [split; [|split] | split; [|split]].
  - reflexivity.
  - reflexivity.
  - intro H. vm_compute in H. discriminate H.
  - reflexivity.
  - intro H. vm_compute in H. discriminate H.
  - intro H.
    apply (f_equal (fun w => Dynamic.lineNumbers (Dynamic.this w))) in H.
    vm_compute in H. discriminate H.
Qed.

(** ** The layout kept when no content is empty *)

Lemma map_get_none {V} (m : JsMap V) k :
  map_get m k = None <-> ~ In k (map_keys m).
Proof.
  induction m as [|[k' v] m IH]; cbn.
  - tauto.
  - destruct (key_eqb k' k) eqn:E.
    + apply key_eqb_eq in E. subst. split; [discriminate | tauto].
    + assert (k' <> k) by (intro; subst; now rewrite key_eqb_refl in E).
      rewrite IH. tauto.
Qed.

Lemma map_set_absent {V} (m : JsMap V) k v :
  map_get m k = None -> map_set m k v = m ++ [(k, v)].
Proof.
  induction m as [|[k' v'] m IH]; cbn; [reflexivity|].
  destruct (key_eqb k' k); [discriminate|].
  intro H. now rewrite IH.
Qed.

Lemma map_set_present_keys {V} (m : JsMap V) k v :
  map_get m k <> None -> map_keys (map_set m k v) = map_keys m.
Proof.
  induction m as [|[k' v'] m IH]; cbn; [contradiction|].
  destruct (key_eqb k' k); cbn; [reflexivity|].
  intro H. unfold map_keys in IH. now rewrite IH.
Qed.

Lemma map_set_present_length {V} (m : JsMap V) k v :
  map_get m k <> None -> List.length (map_set m k v) = List.length m.
Proof.
  intro H. rewrite <- (length_map fst (map_set m k v)), <- (length_map fst m).
  f_equal. now apply map_set_present_keys.
Qed.

Lemma map_set_forall {V} (P : Key * V -> Prop) (m : JsMap V) k v :
  (forall k', P (k', v)) -> Forall P m -> Forall P (map_set m k v).
Proof.
  intros Hv. induction 1 as [|[k' v'] m Hp Hm IH]; cbn.
  - constructor; auto.
  - destruct (key_eqb k' k); constructor; auto.
Qed.

Lemma map_get_in {V} (m : JsMap V) k v :
  map_get m k = Some v -> In (k, v) m.
Proof.
  induction m as [|[k' v'] m IH]; cbn; [discriminate|].
  destruct (key_eqb k' k) eqn:E.
  - apply key_eqb_eq in E. intro H. injection H as ->. subst. now left.
  - intro H. right. auto.
Qed.

Lemma zseq_snoc start count :
  zseq start (S count) = zseq start count ++ [start + Z.of_nat count].
Proof.
  revert start. induction count as [|c IH]; intro start.
  - cbn. f_equal. lia.
  - change (zseq start (S (S c))) with (start :: zseq (start + 1) (S c)).
    rewrite IH. cbn. do 3 f_equal. lia.
Qed.

Lemma map_get_own_keys {V} (m : JsMap V) :
  NoDup (map_keys m) -> map (map_get m) (map_keys m) = map Some (map_values m).
Proof.
  unfold map_keys, map_values.
  induction m as [|[k v] m IH]; intro Hnd; [reflexivity|].
  cbn [map fst snd] in *.
  inversion Hnd as [|? ? Hnotin Hnd']; subst.
  cbn [map_get]. rewrite key_eqb_refl. f_equal.
  rewrite <- (IH Hnd'). apply map_ext_in. intros k' Hk'.
  destruct (key_eqb k k') eqn:E; [|reflexivity].
  apply key_eqb_eq in E. subst. contradiction.
Qed.

Lemma laid_out_contiguous w : laid_out w -> Dynamic.contiguous w.
Proof.
  intros (Hk & Hv & Hnd & _). unfold Dynamic.contiguous.
  rewrite map_get_own_keys by (rewrite Hk; exact Hnd).
  now rewrite Hv.
Qed.

Lemma laid_out_constructor k : laid_out (Dynamic.constructor k).
Proof. repeat split; constructor. Qed.

(** An update with a non-empty content keeps the layout: a key already
    shown keeps its line, a new key is put below the others. *)
Lemma dynamic_update_keeps_layout tty k c w :
  c <> EmptyString ->
  laid_out w -> laid_out (final (Dynamic.update tty k c w)).
Proof.
  intros Hc (Hk & Hv & Hnd & Hall).
  set (sl := Dynamic.statusLines (Dynamic.this w)) in *.
  set (ln := Dynamic.lineNumbers (Dynamic.this w)) in *.
  destruct (truthy (map_get sl k)) eqn:Ht.
  - assert (Hpresent : map_get sl k <> None)
      by (destruct (map_get sl k); [discriminate | discriminate Ht]).
    destruct (String.eqb (or_empty (map_get sl k)) c) eqn:He.
    + rewrite dynamic_update_skipped;
        [now repeat split | unfold Dynamic.skipped; fold sl; now rewrite Ht, He].
    + rewrite (dynamic_update_existing tty k c w Ht He).
      assert (H : laid_out (Dynamic.set_statusLines (map_set sl k c) w)).
      { unfold laid_out.
        cbn [Dynamic.statusLines Dynamic.lineNumbers Dynamic.this
                                 Dynamic.set_statusLines].
        fold sl ln.
        rewrite map_set_present_keys, map_set_present_length by exact Hpresent.
        repeat split; auto.
        apply map_set_forall; auto. }
      destruct (Dynamic.dirty (Dynamic.this w)); exact H.
  - assert (Habsent : map_get sl k = None).
    { destruct (map_get sl k) as [p|] eqn:E; [|reflexivity].
      apply map_get_in in E.
      rewrite Forall_forall in Hall. specialize (Hall _ E). cbn in Hall.
      now rewrite (truthy_nonempty p Hall) in Ht. }
    assert (Habsent' : map_get ln k = None).
    { apply map_get_none. rewrite Hk. now apply map_get_none. }
    rewrite (dynamic_update_new tty k c w Ht). unfold laid_out. cbn.
    fold sl ln.
    rewrite (map_set_absent sl k c Habsent).
    rewrite (map_set_absent ln k _ Habsent').
    unfold map_keys, map_values, map_size in *.
    rewrite !map_app, length_app, Hk, Hv. cbn [map fst snd List.length].
    rewrite Nat.add_1_r, zseq_snoc. cbn [Z.add].
    repeat split.
    + rewrite <- (rev_involutive (map fst sl ++ [k])), rev_app_distr.
      apply NoDup_rev. cbn. constructor.
      * rewrite <- in_rev. now apply map_get_none.
      * now apply NoDup_rev.
    + apply Forall_app. split; [exact Hall|]. now constructor.
Qed.

Lemma dynamic_invoke_keeps_maps tty sl ln f args :
  preserves (fun w => Dynamic.statusLines (Dynamic.this w) = sl /\
                      Dynamic.lineNumbers (Dynamic.this w) = ln)
            (Dynamic.invoke tty f args).
Proof.
  induction f as [c|o IH]; cbn [Dynamic.invoke]; [auto with keeps|].
  unfold Dynamic.clearLines, Dynamic.moveCursorToTop, Dynamic.numLines,
    Dynamic.moveCursorToLine, Dynamic.clearLine.
  keeps; auto.
Qed.

Lemma dynamic_perform_keeps_layout tty op :
  (forall k c, op = Update k c -> c <> EmptyString) ->
  preserves laid_out (Dynamic.perform tty op).
Proof.
  intros Hop w Hw. destruct op as [|k c|ch args|]; cbn [Dynamic.perform].
  - exact Hw.
  - apply dynamic_update_keeps_layout; [now apply (Hop k c) | exact Hw].
  - unfold Dynamic.console_call. rewrite bind_gets.
    destruct (dynamic_invoke_keeps_maps
                tty (Dynamic.statusLines (Dynamic.this w))
                (Dynamic.lineNumbers (Dynamic.this w))
                (console_get ch (Dynamic.console w)) args w) as [Hs Hl];
      [now split|].
    unfold laid_out. rewrite Hs, Hl. exact Hw.
  - exact Hw.
Qed.

(** Every session without an empty-string update keeps the layout, so the
    keys sit on lines 0..numLines-1. *)
Lemma dynamic_session_keeps_layout calls :
  nonempty_updates calls ->
  preserves laid_out (Dynamic.session calls).
Proof.
  induction calls as [|[tty op] rest IH]; intro Hne; cbn [Dynamic.session].
  - apply preserves_ret.
  - apply preserves_bind.
    + apply dynamic_perform_keeps_layout. intros k c ->.
      apply (Hne tty k c). now left.
    + intros _. apply IH. intros t k c Hin. apply (Hne t k c). now right.
Qed.

(** ** Screen lines of the dynamic variant *)

(** The line of a key survives an update of another key, and an update of
    the key itself as long as its stored content is a non-empty string. *)
Lemma dynamic_update_keeps_line tty k c w k0 l :
  map_get (Dynamic.lineNumbers (Dynamic.this w)) k0 = Some l ->
  k <> k0 \/ truthy (map_get (Dynamic.statusLines (Dynamic.this w)) k) = true ->
  map_get
    (Dynamic.lineNumbers (Dynamic.this (final (Dynamic.update tty k c w)))) k0
  = Some l.
Proof.
  intros Hl Hcase.
  destruct (truthy (map_get (Dynamic.statusLines (Dynamic.this w)) k)) eqn:Ht.
  - destruct (String.eqb
                (or_empty (map_get (Dynamic.statusLines (Dynamic.this w)) k))
                c) eqn:He.
    + rewrite dynamic_update_skipped; [exact Hl|].
      unfold Dynamic.skipped. now rewrite Ht, He.
    + rewrite (dynamic_update_existing tty k c w Ht He).
      destruct (Dynamic.dirty (Dynamic.this w)); exact Hl.
  - destruct Hcase as [Hne|Hf]; [|discriminate].
    rewrite (dynamic_update_new tty k c w Ht). cbn.
    now rewrite map_get_set_other.
Qed.

(** C3 fails on the code.  In the dynamic variant a key whose stored content
    is the empty string is taken for an unseen key by the next update (the
    test is [if (prev)]): the key, first placed on line 0, is moved to line
    1 by update(a, "x"). *)
Theorem empty_content_reassigns_screen_line :
  let tty := {| rows := 24; columns := Some 80 |} in
  let a := KStr "a" in
  let w1 := final (Dynamic.session [(tty, Start); (tty, Update a "")]
                     (Dynamic.constructor native_console)) in
  let w2 := final (Dynamic.update tty a "x" w1) in
  map_get (Dynamic.lineNumbers (Dynamic.this w1)) a = Some 0 /\
  map_get (Dynamic.lineNumbers (Dynamic.this w2)) a = Some 1.
Proof. split; reflexivity. Qed.

(** C4 fails on the code, by the same test.  After two keys are shown,
    update(a, "") followed by update(a, "three") leaves two entries whose
    lines are 2 and 1: line 0 is vacant and the values are not a
    rearrangement of 0, 1. *)
Theorem empty_content_breaks_contiguity :
  let tty := {| rows := 24; columns := Some 80 |} in
  let a := KStr "a" in
  let b := KStr "b" in
  let w := final (Dynamic.session
                    [(tty, Start);
                     (tty, Update a "one"); (tty, Update b "two");
                     (tty, Update a ""); (tty, Update a "three")]
                    (Dynamic.constructor native_console)) in
  map_size (Dynamic.statusLines (Dynamic.this w)) = 2 /\
  map_values (Dynamic.lineNumbers (Dynamic.this w)) = [2; 1] /\
  ~ Permutation (map_values (Dynamic.lineNumbers (Dynamic.this w)))
                (zseq 0 2).
Proof.
  intros tty a b w. split; [reflexivity|]. split; [reflexivity|].
  change (~ Permutation [2; 1] [0; 1]). intro H.
  apply Permutation_sym in H.
  apply (Permutation_in 0) in H; [|now left].
  destruct H as [H|[H|[]]]; discriminate H.
Qed.

(** ** Truncation *)

(** Both variants store the content whole. *)
Lemma fixed_update_stores tty i c w :
  0 <= i < Fixed.totalLines (Fixed.this w) ->
  array_get (Fixed.lines (Fixed.this (final (Fixed.update tty i c w)))) i
  = Some c.
Proof.
  intro Hi. rewrite (fixed_update_run tty i c w Hi).
  destruct (Fixed.dirty (Fixed.this w)); cbn; apply array_get_put_same; lia.
Qed.



(** C8 fails on the code.  With 10 columns the limit is 9 characters.  The
    stored and the new content share their first 20 characters, so the
    patch starts at offset 20, past the limit; [substring(20, 9)] swaps its
    arguments and the 11 characters at indices 9..19 are written at column
    21.  The stored content is the new string, whole. *)
Theorem patch_past_width_writes_swapped_range :
  let tty := {| rows := 24; columns := Some 10 |} in
  let k := KStr "job" in
  let w := final (Dynamic.update tty k "0123456789abcdefghijX"
                    (Dynamic.constructor native_console)) in
  let r := Dynamic.update tty k "0123456789abcdefghijY" w in
  written r
  = [CursorTo 23 21; Text "9abcdefghij"; EraseToEnd; CursorTo 24 1] /\
  js_length "9abcdefghij" = 11 /\
  columns_or_80 tty - 1 = 9 /\
  map_get (Dynamic.statusLines (Dynamic.this (final r))) k
  = Some "0123456789abcdefghijY"%string.
Proof. repeat split; reflexivity. Qed.

(** ** The intercepted console functions *)

Lemma fixed_wrapper_clean tty w o args :
  Fixed.dirty (Fixed.this w) = false ->
  Fixed.invoke tty (Intercepted o) args w
  = prepend (Fixed.clear_trace tty (Fixed.totalLines (Fixed.this w)))
            (Fixed.invoke tty o args (Fixed.set_dirty true w)).
Proof.
  intro Hd. cbn [Fixed.invoke]. rewrite bind_gets, Hd. cbn [negb when].
  apply (bind_run _ (fun _ => Fixed.invoke tty o args) w tt).
  rewrite (bind_writes _ _ w _ (fixed_clearLines_run tty w)).
  unfold prepend. cbn. now rewrite app_nil_r.
Qed.

Lemma fixed_wrapper_dirty tty w o args :
  Fixed.dirty (Fixed.this w) = true ->
  Fixed.invoke tty (Intercepted o) args w = Fixed.invoke tty o args w.
Proof.
  intro Hd. cbn [Fixed.invoke]. rewrite bind_gets, Hd. cbn [negb when].
  rewrite (bind_writes _ _ w []) by reflexivity.
  unfold prepend. now destruct (Fixed.invoke tty o args w).
Qed.

Lemma fixed_console_call_intercepted tty c args w :
  Fixed.console w = intercepted_console ->
  Fixed.console_call tty c args w
  = Fixed.invoke tty (Intercepted (Native c)) args w.
Proof.
  intro Hk. unfold Fixed.console_call. rewrite bind_gets, Hk.
  now destruct c.
Qed.

Lemma fixed_burst_dirty msgs w :
  Fixed.console w = intercepted_console ->
  Fixed.dirty (Fixed.this w) = true ->
  Fixed.session (log_calls msgs) w = mkRun (Normal tt) w (log_prints msgs).
Proof.
  intros Hk Hd. induction msgs as [|[[t c] a] msgs IH]; [reflexivity|].
  cbn [log_calls log_prints map Fixed.session fst snd Fixed.perform].
  rewrite (bind_run _ _ w tt w [Print c a]).
  - fold (@log_calls Z msgs). rewrite IH. reflexivity.
  - rewrite fixed_console_call_intercepted by exact Hk.
    now rewrite fixed_wrapper_dirty by exact Hd.
Qed.

Lemma fixed_burst_clean t c a msgs w :
  Fixed.console w = intercepted_console ->
  Fixed.dirty (Fixed.this w) = false ->
  Fixed.session (log_calls ((t, c, a) :: msgs)) w
  = mkRun (Normal tt) (Fixed.set_dirty true w)
          (Fixed.clear_trace t (Fixed.totalLines (Fixed.this w))
           ++ log_prints ((t, c, a) :: msgs)).
Proof.
  intros Hk Hd.
  cbn [log_calls log_prints map Fixed.session fst snd Fixed.perform].
  rewrite (bind_run _ _ w tt (Fixed.set_dirty true w)
             (Fixed.clear_trace t (Fixed.totalLines (Fixed.this w))
              ++ [Print c a])).
  - fold (@log_calls Z msgs). rewrite fixed_burst_dirty by auto.
    unfold prepend. cbn. now rewrite <- app_assoc.
  - rewrite fixed_console_call_intercepted by exact Hk.
    now rewrite fixed_wrapper_clean by exact Hd.
Qed.

Lemma dynamic_wrapper_clean tty w o args :
  Dynamic.dirty (Dynamic.this w) = false ->
  Dynamic.invoke tty (Intercepted o) args w
  = prepend (Dynamic.clear_trace tty
               (map_size (Dynamic.statusLines (Dynamic.this w))))
            (Dynamic.invoke tty o args (Dynamic.set_dirty true w)).
Proof.
  intro Hd. cbn [Dynamic.invoke]. rewrite bind_gets, Hd. cbn [negb when].
  apply (bind_run _ (fun _ => Dynamic.invoke tty o args) w tt).
  rewrite (bind_writes _ _ w _ (dynamic_clearLines_run tty w)).
  rewrite (bind_writes _ _ w _ (dynamic_moveCursorToTop_run tty w)).
  unfold prepend, Dynamic.clear_trace. cbn. reflexivity.
Qed.

Lemma dynamic_wrapper_dirty tty w o args :
  Dynamic.dirty (Dynamic.this w) = true ->
  Dynamic.invoke tty (Intercepted o) args w = Dynamic.invoke tty o args w.
Proof.
  intro Hd. cbn [Dynamic.invoke]. rewrite bind_gets, Hd. cbn [negb when].
  rewrite (bind_writes _ _ w []) by reflexivity.
  unfold prepend. now destruct (Dynamic.invoke tty o args w).
Qed.

Lemma dynamic_console_call_intercepted tty c args w :
  Dynamic.console w = intercepted_console ->
  Dynamic.console_call tty c args w
  = Dynamic.invoke tty (Intercepted (Native c)) args w.
Proof.
  intro Hk. unfold Dynamic.console_call. rewrite bind_gets, Hk.
  now destruct c.
Qed.

Lemma dynamic_burst_dirty msgs w :
  Dynamic.console w = intercepted_console ->
  Dynamic.dirty (Dynamic.this w) = true ->
  Dynamic.session (log_calls msgs) w = mkRun (Normal tt) w (log_prints msgs).
Proof.
  intros Hk Hd. induction msgs as [|[[t c] a] msgs IH]; [reflexivity|].
  cbn [log_calls log_prints map Dynamic.session fst snd Dynamic.perform].
  rewrite (bind_run _ _ w tt w [Print c a]).
  - fold (@log_calls Key msgs). rewrite IH. reflexivity.
  - rewrite dynamic_console_call_intercepted by exact Hk.
    now rewrite dynamic_wrapper_dirty by exact Hd.
Qed.

Lemma dynamic_burst_clean t c a msgs w :
  Dynamic.console w = intercepted_console ->
  Dynamic.dirty (Dynamic.this w) = false ->
  Dynamic.session (log_calls ((t, c, a) :: msgs)) w
  = mkRun (Normal tt) (Dynamic.set_dirty true w)
          (Dynamic.clear_trace t
             (map_size (Dynamic.statusLines (Dynamic.this w)))
           ++ log_prints ((t, c, a) :: msgs)).
Proof.
  intros Hk Hd.
  cbn [log_calls log_prints map Dynamic.session fst snd Dynamic.perform].
  rewrite (bind_run _ _ w tt (Dynamic.set_dirty true w)
             (Dynamic.clear_trace t
                (map_size (Dynamic.statusLines (Dynamic.this w)))
              ++ [Print c a])).
  - fold (@log_calls Key msgs). rewrite dynamic_burst_dirty by auto.
    unfold prepend. cbn. now rewrite <- app_assoc.
  - rewrite dynamic_console_call_intercepted by exact Hk.
    now rewrite dynamic_wrapper_clean by exact Hd.
Qed.

(** ** The dirty flag *)

Lemma fixed_update_dirty tty w i c :
  0 <= i < Fixed.totalLines (Fixed.this w) ->
  Fixed.dirty (Fixed.this w) = true ->
  let l' := array_put (Fixed.lines (Fixed.this w)) (Z.to_nat i) c in
  Fixed.update tty i c w
  = mkRun (Normal tt) (Fixed.set_dirty false (Fixed.set_lines l' w))
          (Fixed.redraw_trace tty l' (Fixed.totalLines (Fixed.this w))).
Proof.
  intros Hi Hd l'. rewrite (fixed_update_run tty i c w Hi), Hd. reflexivity.
Qed.

Lemma dynamic_update_normal tty w k c :
  completion (Dynamic.update tty k c w) = Normal tt.
Proof.
  destruct (truthy (map_get (Dynamic.statusLines (Dynamic.this w)) k)) eqn:Ht.
  - destruct (String.eqb
                (or_empty (map_get (Dynamic.statusLines (Dynamic.this w)) k))
                c) eqn:He.
    + rewrite dynamic_update_skipped; [reflexivity|].
      unfold Dynamic.skipped. now rewrite Ht, He.
    + rewrite (dynamic_update_existing tty k c w Ht He).
      now destruct (Dynamic.dirty (Dynamic.this w)).
  - now rewrite (dynamic_update_new tty k c w Ht).
Qed.

(** An update that is not skipped ends with the flag clear; when the flag
    was set, its trace ends with a full redraw and the parking move. *)
Lemma dynamic_update_not_skipped tty w k c :
  Dynamic.skipped w k c = false ->
  let r := Dynamic.update tty k c w in
  Dynamic.dirty (Dynamic.this (final r)) = false /\
  (Dynamic.dirty (Dynamic.this w) = true ->
   exists before fromThisSpot,
     written r
     = before
       ++ Dynamic.redraw_trace tty fromThisSpot
            (Dynamic.statusLines (Dynamic.this (final r)))
            (Dynamic.lineNumbers (Dynamic.this (final r)))
       ++ [CursorTo (rows tty) 1]).
Proof.
  intros Hs r. subst r.
  destruct (truthy (map_get (Dynamic.statusLines (Dynamic.this w)) k)) eqn:Ht.
  - unfold Dynamic.skipped in Hs. rewrite Ht in Hs. cbn in Hs.
    rewrite (dynamic_update_existing tty k c w Ht Hs).
    destruct (Dynamic.dirty (Dynamic.this w)) eqn:Hd; cbn.
    + split; [reflexivity|]. intros _. exists [], true. reflexivity.
    + split; [exact Hd|]. discriminate.
  - rewrite (dynamic_update_new tty k c w Ht). cbn [final written].
    split; [reflexivity|]. intros _.
    exists ((if Dynamic.dirty (Dynamic.this w)
             then Dynamic.redraw_trace tty true
                    (Dynamic.statusLines (Dynamic.this w))
                    (Dynamic.lineNumbers (Dynamic.this w))
             else []) ++ [CursorTo (rows tty) 1; Newline]), false.
    rewrite <- app_assoc. reflexivity.
Qed.

(** C5, as the code has it.  In both variants: called on a clean block, the
    closure installed by start() clears the lines 0..n-1 of the block, sets
    the flag and then applies the original function; called on a dirty
    block it only applies the original function; so a burst of console
    calls on a clean block writes one clearing sequence followed by the
    printed messages and leaves the flag set.  The next update that
    actually renders (fixed-size variant: index in range; dynamic variant:
    not the early return on a non-empty content equal to the stored one)
    redraws every line of the block and leaves the flag clear; the early
    return writes nothing and leaves the state, flag included, as it
    was. *)
Theorem dirty_flag_protocol :
  (forall tty w o args,
      Fixed.dirty (Fixed.this w) = false ->
      Fixed.invoke tty (Intercepted o) args w
      = prepend (Fixed.clear_trace tty (Fixed.totalLines (Fixed.this w)))
                (Fixed.invoke tty o args (Fixed.set_dirty true w))) /\
  (forall tty w o args,
      Fixed.dirty (Fixed.this w) = true ->
      Fixed.invoke tty (Intercepted o) args w = Fixed.invoke tty o args w) /\
  (forall t c a msgs w,
      Fixed.console w = intercepted_console ->
      Fixed.dirty (Fixed.this w) = false ->
      Fixed.session (log_calls ((t, c, a) :: msgs)) w
      = mkRun (Normal tt) (Fixed.set_dirty true w)
              (Fixed.clear_trace t (Fixed.totalLines (Fixed.this w))
               ++ log_prints ((t, c, a) :: msgs))) /\
  (forall tty w i c,
      0 <= i < Fixed.totalLines (Fixed.this w) ->
      Fixed.dirty (Fixed.this w) = true ->
      let l' := array_put (Fixed.lines (Fixed.this w)) (Z.to_nat i) c in
      Fixed.update tty i c w
      = mkRun (Normal tt) (Fixed.set_dirty false (Fixed.set_lines l' w))
              (Fixed.redraw_trace tty l' (Fixed.totalLines (Fixed.this w)))) /\
  (forall tty w o args,
      Dynamic.dirty (Dynamic.this w) = false ->
      Dynamic.invoke tty (Intercepted o) args w
      = prepend (Dynamic.clear_trace tty
                   (map_size (Dynamic.statusLines (Dynamic.this w))))
                (Dynamic.invoke tty o args (Dynamic.set_dirty true w))) /\
  (forall tty w o args,
      Dynamic.dirty (Dynamic.this w) = true ->
      Dynamic.invoke tty (Intercepted o) args w
      = Dynamic.invoke tty o args w) /\
  (forall t c a msgs w,
      Dynamic.console w = intercepted_console ->
      Dynamic.dirty (Dynamic.this w) = false ->
      Dynamic.session (log_calls ((t, c, a) :: msgs)) w
      = mkRun (Normal tt) (Dynamic.set_dirty true w)
              (Dynamic.clear_trace t
                 (map_size (Dynamic.statusLines (Dynamic.this w)))
               ++ log_prints ((t, c, a) :: msgs))) /\
  (forall tty w k c,
      Dynamic.dirty (Dynamic.this w) = true ->
      Dynamic.skipped w k c = false ->
      let r := Dynamic.update tty k c w in
      completion r = Normal tt /\
      Dynamic.dirty (Dynamic.this (final r)) = false /\
      exists before fromThisSpot,
        written r
        = before
          ++ Dynamic.redraw_trace tty fromThisSpot
               (Dynamic.statusLines (Dynamic.this (final r)))
               (Dynamic.lineNumbers (Dynamic.this (final r)))
          ++ [CursorTo (rows tty) 1]) /\
  (forall tty w k c,
      Dynamic.skipped w k c = true ->
      Dynamic.update tty k c w = mkRun (Normal tt) w []).
Proof.
  split; [exact fixed_wrapper_clean|].
  split; [exact fixed_wrapper_dirty|].
  split; [exact fixed_burst_clean|].
  split; [exact fixed_update_dirty|].
  split; [exact dynamic_wrapper_clean|].
  split; [exact dynamic_wrapper_dirty|].
  split; [exact dynamic_burst_clean|].
  split; [|intros; now apply dynamic_update_skipped].
  intros tty w k c Hd Hs r.
  split; [apply dynamic_update_normal|].
  destruct (dynamic_update_not_skipped tty w k c Hs) as [H1 H2].
  split; [exact H1 | exact (H2 Hd)].
Qed.

Lemma dirty_flag_protocol_witness :
  let tty := {| rows := 24; columns := Some 80 |} in
  let f0 := final (Fixed.session [(tty, Start); (tty, Update 0 "A");
                                  (tty, Update 1 "B")]
                     (Fixed.constructor 3 native_console)) in
  let burst := [(tty, ChLog, "hello"); (tty, ChError, "again")]%string in
  let f := final (Fixed.session (log_calls burst) f0) in
  let d := final (Dynamic.session
                    [(tty, Start); (tty, Update (KStr "a") "A");
                     (tty, ConsoleCall ChError "oops")]
                    (Dynamic.constructor native_console)) in
  Fixed.session (log_calls burst) f0
  = mkRun (Normal tt) (Fixed.set_dirty true f0)
          [CursorTo 23 1; EraseLine; CursorTo 22 1; EraseLine;
           CursorTo 21 1; EraseLine;
           Print ChLog "hello"; Print ChError "again"] /\
  Fixed.update tty 2 "C" f
  = mkRun (Normal tt)
          (Fixed.set_dirty false
             (Fixed.set_lines [Some "A"; Some "B"; Some "C"]%string f))
          [Newline; Newline; Newline;
           CursorTo 23 1; EraseLine; Text "A";
           CursorTo 22 1; EraseLine; Text "B";
           CursorTo 21 1; EraseLine; Text "C"] /\
  Dynamic.dirty (Dynamic.this d) = true /\
  Dynamic.dirty
    (Dynamic.this (final (Dynamic.update tty (KStr "a") "B" d))) = false.
Proof.
  intros tty f0 burst f d.
  destruct dirty_flag_protocol as (_ & _ & Hb & Hf & _ & _ & _ & Hd & _).
  split; [|split; [|split; [reflexivity|]]].
  - exact (Hb tty ChLog "hello"%string [(tty, ChError, "again"%string)] f0
              eq_refl eq_refl).
  - assert (Hi : 0 <= 2 < Fixed.totalLines (Fixed.this f))
      by (change (0 <= 2 < 3); lia).
    exact (Hf tty f 2 "C"%string Hi eq_refl).
  - exact (proj1 (proj2 (Hd tty d (KStr "a") "B"%string eq_refl eq_refl))).
Defined.

(** C5 as stated fails.  Dynamic variant: update(a, "hello"), then a
    console.log, which clears the block and sets the flag; the next update,
    update(a, "hello") again, returns early: nothing is redrawn and the flag
    stays set. *)
Lemma dirty_block_not_redrawn_by_identical_update :
  let tty := {| rows := 24; columns := Some 80 |} in
  let a := KStr "a" in
  let w := final (Dynamic.session
                    [(tty, Start); (tty, Update a "hello");
                     (tty, ConsoleCall ChLog "msg")]
                    (Dynamic.constructor native_console)) in
  Dynamic.dirty (Dynamic.this w) = true /\
  Dynamic.update tty a "hello" w = mkRun (Normal tt) w [] /\
  Dynamic.dirty (Dynamic.this (final (Dynamic.update tty a "hello" w)))
  <> false.
Proof.
  intros tty a w. split; [reflexivity|]. split; [reflexivity|].
  intro H. vm_compute in H. discriminate H.
Qed.

(** C10, as the code has it.  A fixed-size update that returns normally
    leaves the flag clear.  A dynamic update always returns normally; it
    leaves the flag clear unless it is the early return on a non-empty
    content equal to the stored one, which changes nothing; so the flag is
    set after an update only if it was set before and the update was
    skipped.  stop() and the native console functions do not touch the
    object. *)
Theorem update_clears_dirty_unless_skipped :
  (forall tty w i c,
      completion (Fixed.update tty i c w) = Normal tt ->
      Fixed.dirty (Fixed.this (final (Fixed.update tty i c w))) = false) /\
  (forall tty w k c,
      completion (Dynamic.update tty k c w) = Normal tt) /\
  (forall tty w k c,
      Dynamic.skipped w k c = false ->
      Dynamic.dirty (Dynamic.this (final (Dynamic.update tty k c w)))
      = false) /\
  (forall tty w k c,
      Dynamic.skipped w k c = true ->
      Dynamic.update tty k c w = mkRun (Normal tt) w []) /\
  (forall tty w k c,
      Dynamic.dirty (Dynamic.this (final (Dynamic.update tty k c w))) = true ->
      Dynamic.dirty (Dynamic.this w) = true /\
      Dynamic.skipped w k c = true) /\
  (forall tty (w : Fixed.World) c args,
      Fixed.this (final (Fixed.stop tty w)) = Fixed.this w /\
      Fixed.this (final (Fixed.invoke tty (Native c) args w)) = Fixed.this w) /\
  (forall tty (w : Dynamic.World) c args,
      Dynamic.this (final (Dynamic.stop tty w)) = Dynamic.this w /\
      Dynamic.this (final (Dynamic.start w)) = Dynamic.this w /\
      Dynamic.this (final (Dynamic.invoke tty (Native c) args w))
      = Dynamic.this w).
Proof.
  split; [|split; [|split; [|split; [|split; [|split]]]]].
  - intros tty w i c Hn.
    destruct (Z_lt_ge_dec i 0) as [Hlo|Hlo].
    { rewrite fixed_update_guard in Hn by (left; exact Hlo).
      discriminate Hn. }
    destruct (Z_lt_ge_dec i (Fixed.totalLines (Fixed.this w))) as [Hhi|Hhi].
    2:{ rewrite fixed_update_guard in Hn by (right; exact Hhi).
        discriminate Hn. }
    rewrite (fixed_update_run tty i c w) by lia.
    destruct (Fixed.dirty (Fixed.this w)) eqn:Hd; [reflexivity | exact Hd].
  - intros. apply dynamic_update_normal.
  - intros tty w k c Hs. apply (dynamic_update_not_skipped tty w k c Hs).
  - intros. now apply dynamic_update_skipped.
  - intros tty w k c Hd.
    destruct (Dynamic.skipped w k c) eqn:Hs.
    + rewrite dynamic_update_skipped in Hd by exact Hs. now split.
    + rewrite (proj1 (dynamic_update_not_skipped tty w k c Hs)) in Hd.
      discriminate Hd.
  - intros. split; reflexivity.
  - intros. repeat split; reflexivity.
Qed.

Lemma update_clears_dirty_unless_skipped_witness :
  let tty := {| rows := 30; columns := None |} in
  let f := final (Fixed.session
                    [(tty, Start); (tty, ConsoleCall ChWarn "careful")]
                    (Fixed.constructor 2 native_console)) in
  let d := final (Dynamic.session
                    [(tty, Start); (tty, Update (KNum 7) "ready");
                     (tty, ConsoleCall ChWarn "careful")]
                    (Dynamic.constructor native_console)) in
  Fixed.dirty (Fixed.this f) = true /\
  Fixed.dirty (Fixed.this (final (Fixed.update tty 1 "go" f))) = false /\
  Dynamic.dirty (Dynamic.this d) = true /\
  Dynamic.dirty (Dynamic.this (final (Dynamic.update tty (KNum 7) "set" d)))
  = false.
Proof.
  intros tty f d.
  destruct update_clears_dirty_unless_skipped as (Hf & _ & Hd & _).
  split; [reflexivity|]. split; [|split; [reflexivity|]].
  - exact (Hf tty f 1 "go"%string eq_refl).
  - exact (Hd tty d (KNum 7) "set"%string eq_refl).
Defined.

(** C10 as stated fails.  Dynamic variant: the key 7 shows "ready", a
    console.warn sets the flag, and update(7, "ready") returns normally
    through the early return with the flag still set. *)
Lemma identical_update_returns_with_flag_set :
  let tty := {| rows := 30; columns := None |} in
  let w := final (Dynamic.session
                    [(tty, Start); (tty, Update (KNum 7) "ready");
                     (tty, ConsoleCall ChWarn "careful")]
                    (Dynamic.constructor native_console)) in
  let r := Dynamic.update tty (KNum 7) "ready" w in
  completion r = Normal tt /\
  Dynamic.dirty (Dynamic.this (final r)) = true /\
  Dynamic.dirty (Dynamic.this (final r)) <> false.
Proof.
  intros tty w r. split; [reflexivity|]. split; [reflexivity|].
  intro H. vm_compute in H. discriminate H.
Qed.

(** ** Strings written over a row *)

Lemma str_length_append (a b : string) :
  String.length (a ++ b) = (String.length a + String.length b)%nat.
Proof. induction a as [|c a IH]; cbn; [reflexivity | now rewrite IH]. Qed.















(** ** The terminal image *)














(** *** Text, one character at a time *)






























Lemma zseq_in start count z :
  In z (zseq start count) <-> start <= z < start + Z.of_nat count.
Proof.
  revert start. induction count as [|c IH]; intro start;
    cbn [zseq In].
  - lia.
  - rewrite IH. lia.
Qed.










Lemma dynamic_items_in tty sl ln ks it :
  In it (dynamic_items tty sl ln ks) ->
  exists k l, In k ks /\ map_get ln k = Some l /\ fst it = rows tty - l - 1.
Proof.
  unfold dynamic_items. intro H. apply in_flat_map in H as (k & Hk & Hit).
  destruct (map_get ln k) as [l|] eqn:E; [|contradiction].
  destruct Hit as [<-|[]]. now exists k, l.
Qed.







(** *** The layout every session keeps *)


Lemma reachable_layout_constructor k :
  reachable_layout (Dynamic.constructor k).
Proof.
  unfold reachable_layout. cbn. repeat split; [constructor|].
  intros d H. contradiction.
Qed.

Lemma dynamic_update_keeps_reachable tty k c w :
  reachable_layout w -> reachable_layout (final (Dynamic.update tty k c w)).
Proof.
  intros (Hk & Hpos & Hlast).
  set (sl := Dynamic.statusLines (Dynamic.this w)) in *.
  set (ln := Dynamic.lineNumbers (Dynamic.this w)) in *.
  destruct (truthy (map_get sl k)) eqn:Ht.
  - assert (Hpresent : map_get sl k <> None)
      by (destruct (map_get sl k); [discriminate | discriminate Ht]).
    destruct (String.eqb (or_empty (map_get sl k)) c) eqn:He.
    + rewrite dynamic_update_skipped;
        [now repeat split | unfold Dynamic.skipped; fold sl; now rewrite Ht, He].
    + rewrite (dynamic_update_existing tty k c w Ht He).
      assert (H : reachable_layout
                    (Dynamic.set_statusLines (map_set sl k c) w)).
      { unfold reachable_layout.
        cbn [Dynamic.statusLines Dynamic.lineNumbers Dynamic.this
                                 Dynamic.set_statusLines].
        fold sl ln. unfold map_size.
        rewrite map_set_present_keys, map_set_present_length by exact Hpresent.
        repeat split; auto. }
      destruct (Dynamic.dirty (Dynamic.this w)); exact H.
  - rewrite (dynamic_update_new tty k c w Ht). unfold reachable_layout.
    cbn [final Dynamic.statusLines Dynamic.lineNumbers Dynamic.this
               Dynamic.set_statusLines Dynamic.set_lineNumbers
               Dynamic.set_dirty].
    fold sl ln.
    destruct (map_get sl k) as [p|] eqn:Hs.
    + (* the key is there, with an empty content *)
      assert (Hpresent : map_get sl k <> None) by (rewrite Hs; discriminate).
      assert (Hpresent' : map_get ln k <> None).
      { intro Hn. apply map_get_none in Hn. rewrite Hk in Hn. apply Hn.
        apply map_get_in in Hs. now apply (in_map fst) in Hs. }
      unfold map_size.
      rewrite !map_set_present_keys, map_set_present_length; auto.
      repeat split; auto.
      * apply map_set_forall; [|exact Hpos]. intros k'. cbn. lia.
      * intros d Hne. destruct (Hlast d Hne) as (l & Hl & Hn).
        destruct (key_eqb k (last (map_keys ln) d)) eqn:E.
        -- apply key_eqb_eq in E. rewrite <- E, map_get_set_same.
           exists (Z.of_nat (List.length sl)). split; [reflexivity|].
           unfold map_size in Hn. lia.
        -- rewrite map_get_set_other.
           ++ exists l. now split.
           ++ intro E'. subst. now rewrite key_eqb_refl in E.
    + (* a key never seen *)
      assert (Habsent' : map_get ln k = None).
      { apply map_get_none. rewrite Hk. now apply map_get_none. }
      pose proof (map_get_set_same ln k (map_size sl)) as Hget.
      rewrite (map_set_absent sl k c Hs).
      rewrite (map_set_absent ln k _ Habsent') in *.
      unfold map_keys, map_size in *.
      rewrite !map_app, length_app, Hk. cbn [map fst List.length].
      repeat split.
      * apply Forall_app. split; [exact Hpos|]. constructor; [cbn; lia|].
        constructor.
      * intros d _. rewrite last_last, Hget.
        exists (Z.of_nat (List.length sl)). split; [reflexivity | lia].
Qed.

Lemma dynamic_perform_keeps_reachable tty op :
  preserves reachable_layout (Dynamic.perform tty op).
Proof.
  intros w Hw. destruct op as [|k c|ch args|]; cbn [Dynamic.perform].
  - exact Hw.
  - now apply dynamic_update_keeps_reachable.
  - unfold Dynamic.console_call. rewrite bind_gets.
    destruct (dynamic_invoke_keeps_maps
                tty (Dynamic.statusLines (Dynamic.this w))
                (Dynamic.lineNumbers (Dynamic.this w))
                (console_get ch (Dynamic.console w)) args w) as [Hs Hl];
      [now split|].
    unfold reachable_layout. rewrite Hs, Hl. exact Hw.
  - exact Hw.
Qed.

Lemma dynamic_session_reachable k calls :
  reachable_layout (final (Dynamic.session calls (Dynamic.constructor k))).
Proof.
  assert (H : preserves reachable_layout (Dynamic.session calls)).
  { induction calls as [|[tty op] rest IH]; cbn [Dynamic.session].
    - apply preserves_ret.
    - apply preserves_bind; [apply dynamic_perform_keeps_reachable | auto]. }
  apply H, reachable_layout_constructor.
Qed.












(** * More of the code *)

(** ** The cursor position query *)

Lemma digits_of_run (u : Decimal.uint) (tail : string) :
  (tail = EmptyString \/
   exists c r, tail = String c r /\ CursorQuery.is_digit c = false) ->
  CursorQuery.digits_of (NilEmpty.string_of_uint u ++ tail)
  = (NilEmpty.string_of_uint u, tail).
Proof.
  intro Htail.
  induction u as [|u IH|u IH|u IH|u IH|u IH|u IH|u IH|u IH|u IH|u IH];
    cbn [NilEmpty.string_of_uint append];
    try (cbn [CursorQuery.digits_of]; rewrite IH; reflexivity).
  destruct Htail as [->|(c & r & -> & Hc)]; cbn; [reflexivity|].
  now rewrite Hc.
Qed.

Lemma decimal_shape (n : Z) :
  0 <= n ->
  exists u, u <> Decimal.Nil /\ decimal n = NilEmpty.string_of_uint u /\
            Z.of_uint u = n.
Proof.
  intro Hn. unfold decimal.
  pose proof (DecimalZ.of_to n) as Hback.
  destruct n as [|p|p]; [| |lia].
  - exists Decimal.zero. repeat split. discriminate.
  - cbn [Z.to_int NilZero.string_of_int] in *.
    destruct (Pos.to_uint p) as [|u|u|u|u|u|u|u|u|u|u] eqn:E;
      cbn [Z.of_int] in Hback;
      try (eexists; split; [|split; [reflexivity | exact Hback]];
           discriminate).
    cbn in Hback. discriminate Hback.
Qed.

Lemma decimal_digits (n : Z) (tail : string) :
  0 <= n ->
  (tail = EmptyString \/
   exists c r, tail = String c r /\ CursorQuery.is_digit c = false) ->
  CursorQuery.digits_of (decimal n ++ tail) = (decimal n, tail).
Proof.
  intros Hn Htail. destruct (decimal_shape n Hn) as (u & _ & -> & _).
  now apply digits_of_run.
Qed.

Lemma decimal_nonempty (n : Z) :
  0 <= n -> exists c d, decimal n = String c d.
Proof.
  intro Hn. destruct (decimal_shape n Hn) as (u & Hu & -> & _).
  destruct u; try contradiction; cbn; eauto.
Qed.

Lemma parseInt_decimal (n : Z) :
  0 <= n -> CursorQuery.parseInt (decimal n) = CursorQuery.to_number n.
Proof.
  intro Hn. unfold CursorQuery.parseInt.
  rewrite <- (append_empty_r (decimal n)) at 1.
  rewrite decimal_digits by auto. cbn [fst].
  destruct (decimal_shape n Hn) as (u & Hu & -> & Hval).
  replace (NilEmpty.string_of_uint u) with (NilZero.string_of_uint u)
    by (destruct u; try contradiction; reflexivity).
  rewrite NilZero.usu by exact Hu. now rewrite Hval.
Qed.

Lemma match_here_other (c : ascii) (rest : string) :
  c <> "["%char -> CursorQuery.match_here (String c rest) = None.
Proof.
  intro Hc.
  destruct c as [[|] [|] [|] [|] [|] [|] [|] [|]];
    try reflexivity; now contradiction Hc.
Qed.

Lemma exec_skips (pre s : string) :
  (forall i, String.get i pre <> Some "["%char) ->
  CursorQuery.exec (pre ++ s) = CursorQuery.exec s.
Proof.
  induction pre as [|c pre IH]; intro Hpre; [reflexivity|].
  cbn [append CursorQuery.exec].
  rewrite match_here_other.
  - apply IH. intro i. apply (Hpre (S i)).
  - intro E. apply (Hpre 0%nat). cbn. now rewrite E.
Qed.

Lemma exec_without_bracket (input : string) :
  (forall i, String.get i input <> Some "["%char) ->
  CursorQuery.exec input = None.
Proof.
  intro H. rewrite <- (append_empty_r input). now rewrite exec_skips.
Qed.

Lemma match_here_reply (row col : Z) (post : string) :
  0 <= row -> 0 <= col ->
  CursorQuery.match_here
    ("[" ++ decimal row ++ ";" ++ decimal col ++ "R" ++ post)
  = Some (decimal row, decimal col).
Proof.
  intros Hr Hc. cbn [append CursorQuery.match_here].
  rewrite decimal_digits; [|exact Hr|right; eauto].
  destruct (decimal_nonempty row Hr) as (c1 & d1 & E1). rewrite E1.
  rewrite decimal_digits; [|exact Hc|right; eauto].
  destruct (decimal_nonempty col Hc) as (c2 & d2 & E2). rewrite E2.
  reflexivity.
Qed.

(** The integers below 2^53 are read back exactly; above, the value is
    rounded as a double is. *)
Lemma to_number_exact (z : Z) :
  z < 9007199254740992 -> CursorQuery.to_number z = CursorQuery.Num z.
Proof.
  intro Hz. unfold CursorQuery.to_number.
  replace (z <? 2 ^ 53) with true; [reflexivity|].
  symmetry. apply Z.ltb_lt. exact Hz.
Qed.

Lemma parseInt_rounds :
  CursorQuery.parseInt "9007199254740993"
  = CursorQuery.Num 9007199254740992 /\
  CursorQuery.parseInt "9007199254740995"
  = CursorQuery.Num 9007199254740996 /\
  CursorQuery.parseInt "18014398509481987"
  = CursorQuery.Num 18014398509481988.
Proof. repeat split; vm_compute; reflexivity. Qed.

(** X1. The reply of the terminal is read back: a line that holds
    ESC[row;colR, whatever comes after it and whatever comes before it
    that has no "[", resolves the pending promise with the Number values
    of that row and that column, and switches raw mode, the stream and
    the listener off.  A row or a column below 2^53 is resolved exactly;
    a larger one is rounded to a double. *)
Theorem cursor_reply_round_trip (p : CursorQuery.Process)
        (pre post : string) (row col : Z) :
  0 <= row -> 0 <= col ->
  (forall i, String.get i pre <> Some "["%char) ->
  CursorQuery.promise p = CursorQuery.Pending ->
  CursorQuery.on_line
    (pre ++ "[" ++ decimal row ++ ";" ++ decimal col ++ "R" ++ post) p
  = mkRun (Normal tt)
          {| CursorQuery.rawMode := false;
             CursorQuery.flowing := false;
             CursorQuery.listening := false;
             CursorQuery.promise :=
               CursorQuery.Resolved (CursorQuery.to_number row)
                                    (CursorQuery.to_number col) |}
          [] /\
  (row < 9007199254740992 ->
   CursorQuery.to_number row = CursorQuery.Num row) /\
  (col < 9007199254740992 ->
   CursorQuery.to_number col = CursorQuery.Num col).
Proof.
  intros Hr Hc Hpre Hp.
  split; [|split; apply to_number_exact].
  unfold CursorQuery.on_line.
  rewrite exec_skips by exact Hpre.
  assert (E : CursorQuery.exec
                ("[" ++ decimal row ++ ";" ++ decimal col ++ "R" ++ post)
              = Some (decimal row, decimal col)).
  { change ("[" ++ decimal row ++ ";" ++ decimal col ++ "R" ++ post)%string
      with (String "["%char
                   (decimal row ++ ";" ++ decimal col ++ "R" ++ post)).
    cbn [CursorQuery.exec].
    change (String "["%char
                   (decimal row ++ ";" ++ decimal col ++ "R" ++ post))
      with ("[" ++ decimal row ++ ";" ++ decimal col ++ "R" ++ post)%string.
    now rewrite match_here_reply. }
  rewrite E, !parseInt_decimal by assumption.
  rewrite bind_modify. unfold modify, CursorQuery.tear_down,
    CursorQuery.settle. cbn. now rewrite Hp.
Qed.

Lemma cursor_reply_round_trip_witness :
  let p := {| CursorQuery.rawMode := true;
              CursorQuery.flowing := true;
              CursorQuery.listening := true;
              CursorQuery.promise := CursorQuery.Pending |} in
  CursorQuery.on_line (esc ++ "[" ++ decimal 24 ++ ";" ++ decimal 80 ++ "R"
                           ++ "") p
  = mkRun (Normal tt)
          {| CursorQuery.rawMode := false;
             CursorQuery.flowing := false;
             CursorQuery.listening := false;
             CursorQuery.promise :=
               CursorQuery.Resolved (CursorQuery.Num 24)
                                    (CursorQuery.Num 80) |}
          [].
Proof.
  intro p.
  refine (proj1 (cursor_reply_round_trip p esc "" 24 80 _ _ _ eq_refl));
    try lia.
  intros [|[|i]]; cbn; discriminate.
Defined.

(** X2. The whole exchange, for every line and every state of stdin: the
    query ESC[6n is the only thing written, the promise is settled
    (resolved or rejected, never left pending), raw mode is off, the
    stream is paused and the listener is closed, on the success path and
    on the failure path alike; a line without "[", the empty line
    included, rejects with 'Failed to parse cursor position'. *)
Theorem cursor_query_always_torn_down (p : CursorQuery.Process)
        (input : string) :
  let r := bind CursorQuery.getCursorPosition
                (fun _ => CursorQuery.on_line input) p in
  completion r = Normal tt /\
  written r = [Text (esc ++ "[6n")%string] /\
  CursorQuery.rawMode (final r) = false /\
  CursorQuery.flowing (final r) = false /\
  CursorQuery.listening (final r) = false /\
  CursorQuery.promise (final r) <> CursorQuery.Pending /\
  ((forall i, String.get i input <> Some "["%char) ->
   CursorQuery.promise (final r)
   = CursorQuery.Rejected "Failed to parse cursor position").
Proof.
  cbv zeta.
  unfold CursorQuery.getCursorPosition, CursorQuery.on_line, bind, modify,
    emit. cbn.
  assert (Hno : (forall i, String.get i input <> Some "["%char) ->
                CursorQuery.exec input = None)
    by apply exec_without_bracket.
  destruct (CursorQuery.exec input) as [[g1 g2]|] eqn:E; cbn.
  - repeat split; try discriminate.
    intro H. specialize (Hno H). discriminate Hno.
  - repeat split; discriminate.
Qed.

Lemma cursor_query_always_torn_down_witness :
  let p := {| CursorQuery.rawMode := false;
              CursorQuery.flowing := false;
              CursorQuery.listening := false;
              CursorQuery.promise := CursorQuery.Pending |} in
  CursorQuery.promise
    (final (bind CursorQuery.getCursorPosition
                 (fun _ => CursorQuery.on_line "24") p))
  = CursorQuery.Rejected "Failed to parse cursor position".
Proof.
  intro p.
  apply (cursor_query_always_torn_down p "24").
  intros [|[|i]]; cbn; discriminate.
Defined.

(** ** getCommonPrefixLength, algebraically *)

Lemma prefix_length_unique (a b : string) (r : nat) :
  (r <= Nat.min (String.length a) (String.length b))%nat ->
  (forall j, (j < r)%nat -> String.get j a = String.get j b) ->
  (r = Nat.min (String.length a) (String.length b) \/
   String.get r a <> String.get r b) ->
  getCommonPrefixLength a b = r.
Proof.
  intros Hr Heq Hstop. unfold getCommonPrefixLength.
  set (n := Nat.min (String.length a) (String.length b)) in *.
  destruct (prefix_loop_spec n a b n 0 ltac:(lia) ltac:(lia))
    as (Hb & Hpre & Hend).
  set (g := prefix_loop n a b n 0) in *.
  destruct (Nat.lt_trichotomy g r) as [Hlt|[E|Hgt]]; [|exact E|].
  - destruct Hend as [E|Hne]; [lia|].
    apply char_neq_true in Hne. exfalso. apply Hne, Heq, Hlt.
  - destruct Hstop as [E|Hne]; [lia|].
    exfalso. apply Hne. apply char_neq_false, Hpre. lia.
Qed.

Lemma prefix_length_facts (a b : string) :
  let r := getCommonPrefixLength a b in
  (r <= Nat.min (String.length a) (String.length b))%nat /\
  (forall j, (j < r)%nat -> String.get j a = String.get j b) /\
  (r = Nat.min (String.length a) (String.length b) \/
   String.get r a <> String.get r b).
Proof.
  unfold getCommonPrefixLength.
  set (n := Nat.min (String.length a) (String.length b)).
  destruct (prefix_loop_spec n a b n 0 ltac:(lia) ltac:(lia))
    as (Hb & Hpre & Hend).
  split; [lia|]. split.
  - intros j Hj. apply char_neq_false, Hpre. lia.
  - destruct Hend as [E|Hne]; [now left | right; now apply char_neq_true].
Qed.

(** X3. The common prefix length does not depend on the order of its
    arguments; it is the whole length of a string compared with itself or
    with an extension of itself; and it counts one more for each equal
    leading character, stopping at the first unequal one. *)
Theorem getCommonPrefixLength_algebra :
  (forall a b, getCommonPrefixLength a b = getCommonPrefixLength b a) /\
  (forall a s, getCommonPrefixLength a (a ++ s) = String.length a) /\
  (forall a, getCommonPrefixLength a a = String.length a) /\
  (forall c d a b,
      getCommonPrefixLength (String c a) (String d b)
      = if Ascii.eqb c d then S (getCommonPrefixLength a b) else 0%nat).
Proof.
  assert (Hext : forall a s,
             getCommonPrefixLength a (a ++ s) = String.length a).
  { intros a s. apply prefix_length_unique.
    - rewrite str_length_append. lia.
    - intros j Hj. now apply String.append_correct1.
    - left. rewrite str_length_append. lia. }
  split; [|split; [exact Hext|split]].
  - intros a b. destruct (prefix_length_facts b a) as (Hb & Heq & Hstop).
    apply prefix_length_unique.
    + lia.
    + intros j Hj. symmetry. now apply Heq.
    + destruct Hstop as [E|Hne]; [left; lia | right; congruence].
  - intro a. rewrite <- (append_empty_r a) at 2. apply Hext.
  - intros c d a b. destruct (prefix_length_facts a b) as (Hb & Heq & Hstop).
    destruct (Ascii.eqb_spec c d) as [->|Hne].
    + apply prefix_length_unique; cbn [String.length].
      * lia.
      * intros [|j] Hj; cbn; [reflexivity | apply Heq; lia].
      * destruct Hstop as [E|Hd]; [left; lia | right; exact Hd].
    + apply prefix_length_unique; cbn [String.length].
      * lia.
      * intros j Hj. lia.
      * right. cbn. congruence.
Qed.

(** ** What an update stores *)

Lemma array_get_put_other (l : JsArray) (i : nat) (j : Z) (v : string) :
  j <> Z.of_nat i -> array_get (array_put l i v) j = array_get l j.
Proof.
  intro Hne. unfold array_get.
  destruct (j <? 0) eqn:Hj; [reflexivity|]. apply Z.ltb_ge in Hj.
  assert (Hn : Z.to_nat j <> i) by lia.
  generalize dependent (Z.to_nat j). clear. intros n. revert l n.
  induction i as [|i IH]; intros [|x l] [|n] Hn; cbn;
    try reflexivity; try contradiction.
  - now destruct n.
  - specialize (IH [] n ltac:(congruence)). cbn in IH.
    destruct n; cbn in *; exact IH.
  - apply IH. congruence.
Qed.

Lemma dynamic_update_maps tty k c w :
  let w' := final (Dynamic.update tty k c w) in
  let sl := Dynamic.statusLines (Dynamic.this w) in
  let ln := Dynamic.lineNumbers (Dynamic.this w) in
  (Dynamic.statusLines (Dynamic.this w') = sl \/
   Dynamic.statusLines (Dynamic.this w') = map_set sl k c) /\
  (Dynamic.lineNumbers (Dynamic.this w') = ln \/
   Dynamic.lineNumbers (Dynamic.this w') = map_set ln k (map_size sl)) /\
  Dynamic.console w' = Dynamic.console w.
Proof.
  cbv zeta.
  destruct (truthy (map_get (Dynamic.statusLines (Dynamic.this w)) k)) eqn:Ht.
  - destruct (String.eqb
                (or_empty (map_get (Dynamic.statusLines (Dynamic.this w)) k))
                c) eqn:He.
    + rewrite dynamic_update_skipped; [cbn; auto|].
      unfold Dynamic.skipped. now rewrite Ht, He.
    + rewrite (dynamic_update_existing tty k c w Ht He).
      destruct (Dynamic.dirty (Dynamic.this w)); cbn; auto.
  - rewrite (dynamic_update_new tty k c w Ht). cbn. auto.
Qed.

(** X4. In the dynamic variant, update(k, c) always leaves c, whole, as
    the content of k, and changes the content of no other key; it never
    touches the bindings of the console. *)
Theorem dynamic_update_sets_only_its_entry tty k c w :
  let w' := final (Dynamic.update tty k c w) in
  map_get (Dynamic.statusLines (Dynamic.this w')) k = Some c /\
  (forall k', k' <> k ->
              map_get (Dynamic.statusLines (Dynamic.this w')) k'
              = map_get (Dynamic.statusLines (Dynamic.this w)) k') /\
  Dynamic.console w' = Dynamic.console w.
Proof.
  cbv zeta. split; [apply dynamic_update_stores|].
  destruct (dynamic_update_maps tty k c w) as (Hs & _ & Hc).
  split; [|exact Hc].
  intros k' Hne. destruct Hs as [->| ->]; [reflexivity|].
  apply map_get_set_other. congruence.
Qed.

Lemma dynamic_update_sets_only_its_entry_witness :
  let tty := {| rows := 24; columns := Some 80 |} in
  let w := final (Dynamic.update tty (KStr "b") "other"
                                 (Dynamic.constructor native_console)) in
  map_get (Dynamic.statusLines
             (Dynamic.this (final (Dynamic.update tty (KStr "a") "new" w))))
          (KStr "b")
  = Some "other"%string.
Proof.
  intros tty w.
  apply (proj1 (proj2 (dynamic_update_sets_only_its_entry
                         tty (KStr "a") "new" w))
               (KStr "b")).
  discriminate.
Defined.

(** X5. In the fixed-size variant, an update with an index in range
    returns normally, leaves the content, whole, at that index, changes
    no other index, and touches neither the number of lines nor the
    console. *)
Theorem fixed_update_sets_only_its_line tty i c w :
  0 <= i < Fixed.totalLines (Fixed.this w) ->
  let r := Fixed.update tty i c w in
  completion r = Normal tt /\
  array_get (Fixed.lines (Fixed.this (final r))) i = Some c /\
  (forall j, j <> i ->
             array_get (Fixed.lines (Fixed.this (final r))) j
             = array_get (Fixed.lines (Fixed.this w)) j) /\
  Fixed.totalLines (Fixed.this (final r)) = Fixed.totalLines (Fixed.this w) /\
  Fixed.console (final r) = Fixed.console w.
Proof.
  intros Hi r. subst r. rewrite (fixed_update_run tty i c w Hi).
  destruct (Fixed.dirty (Fixed.this w)); cbn;
    (split; [reflexivity|]; split; [apply array_get_put_same; lia|];
     split; [|split; reflexivity];
     intros j Hj; apply array_get_put_other; lia).
Qed.

Lemma fixed_update_sets_only_its_line_witness :
  let tty := {| rows := 24; columns := Some 80 |} in
  let w := final (Fixed.session [(tty, Start); (tty, Update 0 "A")]
                    (Fixed.constructor 3 native_console)) in
  0 <= 2 < Fixed.totalLines (Fixed.this w) /\
  array_get (Fixed.lines (Fixed.this (final (Fixed.update tty 2 "C" w)))) 2
  = Some "C"%string.
Proof.
  intros tty w.
  assert (Hi : 0 <= 2 < Fixed.totalLines (Fixed.this w))
    by (change (0 <= 2 < 3); lia).
  split; [exact Hi|].
  exact (proj1 (proj2 (fixed_update_sets_only_its_line tty 2 "C" w Hi))).
Defined.

(** ** Sessions of the dynamic variant *)

Lemma bind_completion {W A B} (m : Eff W A) (f : A -> Eff W B) w a :
  completion (m w) = Normal a ->
  bind m f w = prepend (written (m w)) (f a (final (m w))).
Proof.
  intro H. apply bind_run. destruct (m w) as [c w' t]. cbn in *. now subst.
Qed.

Lemma dynamic_invoke_normal tty f args w :
  completion (Dynamic.invoke tty f args w) = Normal tt.
Proof.
  revert w. induction f as [c|o IH]; intro w; [reflexivity|].
  destruct (Dynamic.dirty (Dynamic.this w)) eqn:Hd.
  - rewrite dynamic_wrapper_dirty by exact Hd. apply IH.
  - rewrite dynamic_wrapper_clean by exact Hd. cbn. apply IH.
Qed.

Lemma dynamic_perform_normal tty op w :
  completion (Dynamic.perform tty op w) = Normal tt.
Proof.
  destruct op as [|k c|ch args|]; cbn [Dynamic.perform].
  - reflexivity.
  - apply dynamic_update_normal.
  - unfold Dynamic.console_call. rewrite bind_gets.
    apply dynamic_invoke_normal.
  - reflexivity.
Qed.

Lemma dynamic_session_cons tty op rest w :
  Dynamic.session ((tty, op) :: rest) w
  = prepend (written (Dynamic.perform tty op w))
            (Dynamic.session rest (final (Dynamic.perform tty op w))).
Proof.
  cbn [Dynamic.session].
  apply (bind_completion _ (fun _ => Dynamic.session rest) w tt).
  apply dynamic_perform_normal.
Qed.

Lemma dynamic_session_app a b w :
  final (Dynamic.session (a ++ b) w)
  = final (Dynamic.session b (final (Dynamic.session a w))) /\
  written (Dynamic.session (a ++ b) w)
  = written (Dynamic.session a w)
    ++ written (Dynamic.session b (final (Dynamic.session a w))) /\
  completion (Dynamic.session (a ++ b) w) = Normal tt.
Proof.
  revert w. induction a as [|[tty op] a IH]; intro w.
  - cbn [app Dynamic.session ret final written].
    split; [reflexivity|]. split; [reflexivity|].
    induction b as [|[tty op] b IHb] in w |- *; [reflexivity|].
    rewrite dynamic_session_cons. cbn. apply IHb.
  - cbn [app]. rewrite !dynamic_session_cons. cbn [prepend final written
                                                          completion].
    destruct (IH (final (Dynamic.perform tty op w))) as (Hf & Hw & Hc).
    rewrite Hf, Hw, Hc. now rewrite app_assoc.
Qed.

Lemma map_get_of_key {V} (m : JsMap V) k :
  In k (map_keys m) -> exists v, map_get m k = Some v.
Proof.
  intro Hin. destruct (map_get m k) as [v|] eqn:E; [eauto|].
  apply map_get_none in E. contradiction.
Qed.

Lemma map_get_some_key {V} (m : JsMap V) k v :
  map_get m k = Some v -> In k (map_keys m).
Proof. intro H. apply map_get_in in H. now apply (in_map fst) in H. Qed.

Lemma dynamic_perform_keeps_line tty op key l :
  (forall k c, op = Update k c -> c <> EmptyString) ->
  preserves (fun w => laid_out w /\
                      map_get (Dynamic.lineNumbers (Dynamic.this w)) key
                      = Some l)
            (Dynamic.perform tty op).
Proof.
  intros Hop w [Hlay Hline].
  split; [now apply dynamic_perform_keeps_layout|].
  destruct op as [|k c|ch args|]; cbn [Dynamic.perform]; try exact Hline.
  - apply dynamic_update_keeps_line; [exact Hline|].
    destruct (key_eqb k key) eqn:E.
    + right. apply key_eqb_eq in E. subst k.
      destruct Hlay as (Hk & _ & _ & Hall).
      apply map_get_some_key in Hline. rewrite Hk in Hline.
      destruct (map_get_of_key _ _ Hline) as (p & Hp). rewrite Hp.
      apply truthy_nonempty. apply map_get_in in Hp.
      rewrite Forall_forall in Hall. apply (Hall _ Hp).
    + left. intros ->. now rewrite key_eqb_refl in E.
  - unfold Dynamic.console_call. rewrite bind_gets.
    destruct (dynamic_invoke_keeps_maps
                tty (Dynamic.statusLines (Dynamic.this w))
                (Dynamic.lineNumbers (Dynamic.this w))
                (console_get ch (Dynamic.console w)) args w) as [_ Hl];
      [now split|].
    now rewrite Hl.
Qed.

Lemma dynamic_session_keeps_line calls key l :
  nonempty_updates calls ->
  preserves (fun w => laid_out w /\
                      map_get (Dynamic.lineNumbers (Dynamic.this w)) key
                      = Some l)
            (Dynamic.session calls).
Proof.
  induction calls as [|[tty op] rest IH]; intro Hne; cbn [Dynamic.session].
  - apply preserves_ret.
  - apply preserves_bind.
    + apply dynamic_perform_keeps_line. intros k c ->.
      apply (Hne tty k c). now left.
    + intros _. apply IH. intros t k c Hin. apply (Hne t k c). now right.
Qed.

(** X6. As long as no update passes the empty string, the dynamic variant
    keeps its layout through every sequence of calls: both maps list the
    same keys, each once and in the order of first use, and their lines
    are 0, 1, ..., numLines-1 in that order, so the lines in use are
    exactly the numLines bottom lines. *)
Theorem dynamic_lines_follow_first_use (k0 : Console)
        (calls : list (Tty * Op Key)) :
  nonempty_updates calls ->
  let w := final (Dynamic.session calls (Dynamic.constructor k0)) in
  let sl := Dynamic.statusLines (Dynamic.this w) in
  let ln := Dynamic.lineNumbers (Dynamic.this w) in
  map_keys ln = map_keys sl /\
  NoDup (map_keys sl) /\
  map_values ln = zseq 0 (List.length sl) /\
  Permutation (map_values ln) (zseq 0 (List.length sl)) /\
  (forall k l, map_get ln k = Some l -> 0 <= l < map_size sl).
Proof.
  intros Hne w sl ln.
  destruct (dynamic_session_keeps_layout calls Hne
              (Dynamic.constructor k0) (laid_out_constructor k0))
    as (Hk & Hv & Hnd & _).
  fold w in Hk, Hv, Hnd. fold sl ln in Hk, Hv, Hnd.
  split; [exact Hk|]. split; [exact Hnd|]. split; [exact Hv|].
  split; [now rewrite Hv|].
  intros k l Hl. apply map_get_in in Hl.
  apply (in_map snd) in Hl. fold (map_values ln) in Hl. rewrite Hv in Hl.
  apply zseq_in in Hl. unfold map_size. cbn in Hl. lia.
Qed.

Lemma dynamic_lines_follow_first_use_witness :
  let tty := {| rows := 24; columns := Some 80 |} in
  let calls := [(tty, Start); (tty, Update (KStr "a") "one");
                (tty, ConsoleCall ChLog "x"); (tty, Update (KNum 2) "two");
                (tty, Update (KStr "a") "three")] in
  nonempty_updates calls /\
  map_values
    (Dynamic.lineNumbers
       (Dynamic.this
          (final (Dynamic.session calls (Dynamic.constructor native_console)))))
  = zseq 0 2.
Proof.
  intros tty calls.
  assert (Hne : nonempty_updates calls).
  { intros t k c [H|[H|[H|[H|[H|[]]]]]]; inversion H; discriminate. }
  split; [exact Hne|].
  exact (proj1 (proj2 (proj2
           (dynamic_lines_follow_first_use native_console calls Hne)))).
Defined.

(** X7. As long as no update passes the empty string, the line of a key,
    once assigned, is the line of that key after any further calls. *)
Theorem dynamic_line_is_stable (k0 : Console)
        (before after : list (Tty * Op Key)) (key : Key) (l : Z) :
  nonempty_updates (before ++ after) ->
  map_get
    (Dynamic.lineNumbers
       (Dynamic.this
          (final (Dynamic.session before (Dynamic.constructor k0))))) key
  = Some l ->
  map_get
    (Dynamic.lineNumbers
       (Dynamic.this
          (final (Dynamic.session (before ++ after)
                                  (Dynamic.constructor k0))))) key
  = Some l.
Proof.
  intros Hne Hl.
  rewrite (proj1 (dynamic_session_app before after _)).
  assert (Hb : nonempty_updates before).
  { intros t k c Hin. apply (Hne t k c), in_or_app. now left. }
  assert (Ha : nonempty_updates after).
  { intros t k c Hin. apply (Hne t k c), in_or_app. now right. }
  apply (dynamic_session_keeps_line after key l Ha). split; [|exact Hl].
  apply (dynamic_session_keeps_layout before Hb), laid_out_constructor.
Qed.

Lemma dynamic_line_is_stable_witness :
  let tty := {| rows := 24; columns := Some 80 |} in
  let before := [(tty, Start); (tty, Update (KStr "a") "one");
                 (tty, Update (KStr "b") "two")] in
  let after := [(tty, ConsoleCall ChWarn "w"); (tty, Update (KStr "c") "3");
                (tty, Update (KStr "b") "again")] in
  map_get
    (Dynamic.lineNumbers
       (Dynamic.this
          (final (Dynamic.session (before ++ after)
                                  (Dynamic.constructor native_console)))))
    (KStr "b")
  = Some 1.
Proof.
  intros tty before after.
  apply (dynamic_line_is_stable native_console before after (KStr "b") 1);
    [|reflexivity].
  intros t k c [H|[H|[H|[H|[H|[H|[]]]]]]]; inversion H; discriminate.
Defined.

Lemma map_set_keys_grow {V} (m : JsMap V) k v :
  exists ext, map_keys (map_set m k v) = map_keys m ++ ext.
Proof.
  induction m as [|[k' v'] m IH]; cbn.
  - now exists [k].
  - destruct (key_eqb k' k); cbn.
    + exists []. now rewrite app_nil_r.
    + destruct IH as (ext & IH). exists ext. unfold map_keys in IH.
      now rewrite IH.
Qed.

Lemma dynamic_perform_maps tty op w :
  let w' := final (Dynamic.perform tty op w) in
  (exists ext, map_keys (Dynamic.statusLines (Dynamic.this w'))
               = map_keys (Dynamic.statusLines (Dynamic.this w)) ++ ext) /\
  (exists ext, map_keys (Dynamic.lineNumbers (Dynamic.this w'))
               = map_keys (Dynamic.lineNumbers (Dynamic.this w)) ++ ext).
Proof.
  assert (Hsame : forall A (l : list A), exists ext, l = l ++ ext)
    by (intros A l; exists []; now rewrite app_nil_r).
  destruct op as [|k c|ch args|]; cbn [Dynamic.perform]; cbv zeta.
  - split; apply Hsame.
  - destruct (dynamic_update_maps tty k c w) as (Hs & Hl & _).
    split.
    + destruct Hs as [->| ->]; [apply Hsame | apply map_set_keys_grow].
    + destruct Hl as [->| ->]; [apply Hsame | apply map_set_keys_grow].
  - unfold Dynamic.console_call. rewrite bind_gets.
    destruct (dynamic_invoke_keeps_maps
                tty (Dynamic.statusLines (Dynamic.this w))
                (Dynamic.lineNumbers (Dynamic.this w))
                (console_get ch (Dynamic.console w)) args w) as [Hs Hl];
      [now split|].
    rewrite Hs, Hl. split; apply Hsame.
  - split; apply Hsame.
Qed.

(** X8. No call of the dynamic variant ever removes an entry or reorders
    the keys: after any sequence of calls, from any state, the keys of
    both maps are the former keys followed by the new ones, every key
    stored before is still stored, and numLines has not decreased. *)
Theorem dynamic_entries_only_grow (calls : list (Tty * Op Key))
        (w : Dynamic.World) :
  let w' := final (Dynamic.session calls w) in
  (exists ext, map_keys (Dynamic.statusLines (Dynamic.this w'))
               = map_keys (Dynamic.statusLines (Dynamic.this w)) ++ ext) /\
  (exists ext, map_keys (Dynamic.lineNumbers (Dynamic.this w'))
               = map_keys (Dynamic.lineNumbers (Dynamic.this w)) ++ ext) /\
  (forall k, map_get (Dynamic.statusLines (Dynamic.this w)) k <> None ->
             map_get (Dynamic.statusLines (Dynamic.this w')) k <> None) /\
  map_size (Dynamic.statusLines (Dynamic.this w))
  <= map_size (Dynamic.statusLines (Dynamic.this w')).
Proof.
  cbv zeta.
  assert (H : (exists ext,
                  map_keys (Dynamic.statusLines
                              (Dynamic.this (final (Dynamic.session calls w))))
                  = map_keys (Dynamic.statusLines (Dynamic.this w)) ++ ext) /\
              (exists ext,
                  map_keys (Dynamic.lineNumbers
                              (Dynamic.this (final (Dynamic.session calls w))))
                  = map_keys (Dynamic.lineNumbers (Dynamic.this w)) ++ ext)).
  { revert w. induction calls as [|[tty op] rest IH]; intro w.
    - split; exists []; now rewrite app_nil_r.
    - rewrite dynamic_session_cons. cbn [prepend final].
      destruct (dynamic_perform_maps tty op w) as ((e1 & H1) & (e2 & H2)).
      destruct (IH (final (Dynamic.perform tty op w)))
        as ((e3 & H3) & (e4 & H4)).
      split.
      + exists (e1 ++ e3). now rewrite H3, H1, app_assoc.
      + exists (e2 ++ e4). now rewrite H4, H2, app_assoc. }
  destruct H as ((e1 & H1) & H2).
  split; [now exists e1|]. split; [exact H2|]. split.
  - intros k Hk Hnone. apply map_get_none in Hnone. apply Hnone.
    rewrite H1. apply in_or_app. left.
    destruct (map_get (Dynamic.statusLines (Dynamic.this w)) k) eqn:E;
      [|contradiction].
    now apply map_get_some_key in E.
  - unfold map_size. apply (f_equal (@List.length _)) in H1.
    unfold map_keys in H1. rewrite length_app, !length_map in H1. lia.
Qed.

Lemma dynamic_entries_only_grow_witness :
  let tty := {| rows := 24; columns := Some 80 |} in
  let w := final (Dynamic.update tty (KStr "a") "one"
                                 (Dynamic.constructor native_console)) in
  let calls := [(tty, Update (KStr "a") ""); (tty, Stop);
                (tty, Update (KNum 3) "three")] in
  map_get (Dynamic.statusLines
             (Dynamic.this (final (Dynamic.session calls w))))
          (KStr "a")
  <> None.
Proof.
  intros tty w calls.
  apply (proj1 (proj2 (proj2 (dynamic_entries_only_grow calls w)))
               (KStr "a")).
  discriminate.
Defined.

(** X9. The first update of a key never stored (in a state reached from
    construction) puts it on line numLines, below the others, adds it
    at the end of both maps, adds one to numLines and keeps the line of
    every other key; before redrawing it makes room with a cursor move to
    the bottom row and a line feed, and it ends with the whole block
    redrawn from its top and the cursor parked on the bottom row. *)
Theorem dynamic_first_update_appends (k0 : Console)
        (calls : list (Tty * Op Key)) (tty : Tty) (k : Key) (c : string) :
  let w := final (Dynamic.session calls (Dynamic.constructor k0)) in
  let sl := Dynamic.statusLines (Dynamic.this w) in
  let ln := Dynamic.lineNumbers (Dynamic.this w) in
  map_get sl k = None ->
  let r := Dynamic.update tty k c w in
  let sl' := Dynamic.statusLines (Dynamic.this (final r)) in
  let ln' := Dynamic.lineNumbers (Dynamic.this (final r)) in
  map_get ln' k = Some (map_size sl) /\
  map_size sl' = map_size sl + 1 /\
  map_keys sl' = map_keys sl ++ [k] /\
  map_keys ln' = map_keys ln ++ [k] /\
  (forall k', k' <> k -> map_get ln' k' = map_get ln k') /\
  exists before,
    written r
    = before ++ [CursorTo (rows tty) 1; Newline]
      ++ Dynamic.redraw_trace tty false sl' ln' ++ [CursorTo (rows tty) 1].
Proof.
  intros w sl ln Hnone r sl' ln'. subst r sl' ln'.
  destruct (dynamic_session_reachable k0 calls) as (Hk & _ & _).
  fold w in Hk. fold sl ln in Hk.
  assert (Ht : truthy (map_get sl k) = false) by now rewrite Hnone.
  assert (Hnone' : map_get ln k = None).
  { apply map_get_none. rewrite Hk. now apply map_get_none. }
  rewrite (dynamic_update_new tty k c w Ht).
  cbn [final written Dynamic.statusLines Dynamic.lineNumbers Dynamic.this
             Dynamic.set_dirty Dynamic.set_statusLines
             Dynamic.set_lineNumbers].
  fold sl ln.
  split; [apply map_get_set_same|].
  rewrite (map_set_absent sl k c Hnone).
  split; [unfold map_size; rewrite length_app; cbn; lia|].
  split; [unfold map_keys; now rewrite map_app|].
  split; [rewrite (map_set_absent ln k _ Hnone');
          unfold map_keys; now rewrite map_app|].
  split.
  - intros k' Hne. apply map_get_set_other. congruence.
  - rewrite <- (map_set_absent sl k c Hnone). eexists. reflexivity.
Qed.

Lemma dynamic_first_update_appends_witness :
  let tty := {| rows := 24; columns := Some 80 |} in
  let calls := [(tty, Start); (tty, Update (KStr "a") "one")] in
  let w := final (Dynamic.session calls (Dynamic.constructor native_console)) in
  map_get
    (Dynamic.lineNumbers
       (Dynamic.this (final (Dynamic.update tty (KStr "b") "two" w))))
    (KStr "b")
  = Some 1.
Proof.
  intros tty calls w.
  exact (proj1 (dynamic_first_update_appends
                  native_console calls tty (KStr "b") "two" eq_refl)).
Defined.



(** ** The console, through a session *)

Lemma fixed_invoke_keeps_console tty k f args :
  preserves (fun w => Fixed.console w = k) (Fixed.invoke tty f args).
Proof.
  induction f as [c|o IH]; cbn [Fixed.invoke]; [auto with keeps|].
  unfold Fixed.clearLines, Fixed.moveCursorToLine, Fixed.clearLine.
  keeps; auto.
Qed.

Lemma dynamic_invoke_keeps_console tty k f args :
  preserves (fun w => Dynamic.console w = k) (Dynamic.invoke tty f args).
Proof.
  induction f as [c|o IH]; cbn [Dynamic.invoke]; [auto with keeps|].
  unfold Dynamic.clearLines, Dynamic.moveCursorToTop, Dynamic.numLines,
    Dynamic.moveCursorToLine, Dynamic.clearLine.
  keeps; auto.
Qed.

Lemma fixed_perform_keeps_console tty k op :
  op <> Start -> op <> Stop ->
  preserves (fun w => Fixed.console w = k) (Fixed.perform tty op).
Proof.
  intros H1 H2.
  pose proof (fixed_invoke_keeps_console tty k) as Hinv.
  destruct op; try contradiction; cbn [Fixed.perform];
    unfold Fixed.update, Fixed.console_call,
      Fixed.redrawAllLines, Fixed.updateSingleLine, Fixed.writeStatusLine,
      Fixed.moveCursorToLine, Fixed.clearLine;
    keeps; auto.
Qed.

Lemma dynamic_perform_keeps_console tty k op :
  op <> Start -> op <> Stop ->
  preserves (fun w => Dynamic.console w = k) (Dynamic.perform tty op).
Proof.
  intros H1 H2 w Hw. destruct op as [|key c|ch args|]; try contradiction;
    cbn [Dynamic.perform].
  - now rewrite (proj2 (proj2 (dynamic_update_maps tty key c w))).
  - unfold Dynamic.console_call. rewrite bind_gets.
    now apply dynamic_invoke_keeps_console.
Qed.

(** X11. Only start() and stop() rebind the console: through any sequence
    of updates and console calls, in either variant and whether or not a
    call throws, console.log, console.error and console.warn stay bound
    to what they were, so the interception installed by start() stays in
    place until stop(). *)
Theorem console_rebound_only_by_start_and_stop :
  (forall calls w,
      no_start_stop calls ->
      Fixed.console (final (Fixed.session calls w)) = Fixed.console w) /\
  (forall calls w,
      no_start_stop calls ->
      Dynamic.console (final (Dynamic.session calls w)) = Dynamic.console w).
Proof.
  split.
  - intros calls w Hno.
    assert (H : preserves (fun w' => Fixed.console w' = Fixed.console w)
                          (Fixed.session calls)).
    { clear - Hno. induction calls as [|[tty op] rest IH];
        cbn [Fixed.session].
      - apply preserves_ret.
      - apply preserves_bind.
        + destruct (Hno tty op (or_introl eq_refl)).
          now apply fixed_perform_keeps_console.
        + intros _. apply IH. intros t o Hin. apply (Hno t o). now right. }
    now apply H.
  - intros calls w Hno.
    assert (H : preserves (fun w' => Dynamic.console w' = Dynamic.console w)
                          (Dynamic.session calls)).
    { clear - Hno. induction calls as [|[tty op] rest IH];
        cbn [Dynamic.session].
      - apply preserves_ret.
      - apply preserves_bind.
        + destruct (Hno tty op (or_introl eq_refl)).
          now apply dynamic_perform_keeps_console.
        + intros _. apply IH. intros t o Hin. apply (Hno t o). now right. }
    now apply H.
Qed.

Lemma console_rebound_only_by_start_and_stop_witness :
  let tty := {| rows := 24; columns := Some 80 |} in
  let w := final (Dynamic.start (Dynamic.constructor native_console)) in
  let calls := [(tty, Update (KStr "a") "one"); (tty, ConsoleCall ChLog "x");
                (tty, Update (KStr "a") "")] in
  Dynamic.console (final (Dynamic.session calls w)) = intercepted_console.
Proof.
  intros tty w calls.
  apply (proj2 console_rebound_only_by_start_and_stop calls w).
  intros t op [H|[H|[H|[]]]]; inversion H; split; discriminate.
Defined.

Lemma fixed_invoke_normal tty f args w :
  completion (Fixed.invoke tty f args w) = Normal tt.
Proof.
  revert w. induction f as [c|o IH]; intro w; [reflexivity|].
  destruct (Fixed.dirty (Fixed.this w)) eqn:Hd.
  - rewrite fixed_wrapper_dirty by exact Hd. apply IH.
  - rewrite fixed_wrapper_clean by exact Hd. cbn. apply IH.
Qed.

Lemma fixed_console_call_normal tty c args w :
  completion (Fixed.console_call tty c args w) = Normal tt.
Proof.
  unfold Fixed.console_call. rewrite bind_gets. apply fixed_invoke_normal.
Qed.

Lemma for_from_normal {W} (body : Z -> Eff W unit) :
  (forall i w, completion (body i w) = Normal tt) ->
  forall count start w, completion (for_from body start count w) = Normal tt.
Proof.
  intro Hb. induction count as [|c IH]; intros start w; [reflexivity|].
  cbn [for_from].
  rewrite (bind_completion _ (fun _ => for_from body (start + 1) c) w tt)
    by apply Hb.
  unfold prepend. cbn [completion]. apply IH.
Qed.

Lemma start_prints_normal tty n w :
  completion (start_prints tty n w) = Normal tt.
Proof.
  unfold start_prints.
  rewrite (bind_completion
             _ (fun _ => Fixed.console_call tty ChLog EmptyString) w tt).
  - unfold prepend. cbn [completion]. apply fixed_console_call_normal.
  - apply for_from_normal. intros i w'. apply fixed_console_call_normal.
Qed.

Lemma fixed_start_run tty w :
  0 <= Fixed.totalLines (Fixed.this w) <= max_array_length ->
  let n := Fixed.totalLines (Fixed.this w) in
  let w1 := Fixed.set_lines (repeat (Some EmptyString) (Z.to_nat n)) w in
  let r := start_prints tty n w1 in
  Fixed.start tty w
  = mkRun (Normal tt)
          (Fixed.set_console
             {| console_log := Intercepted (Fixed.originalLog (Fixed.this w));
                console_error :=
                  Intercepted (Fixed.originalError (Fixed.this w));
                console_warn :=
                  Intercepted (Fixed.originalWarn (Fixed.this w)) |}
             (final r))
          (written r).
Proof.
  intros Hn n w1 r. unfold Fixed.start. rewrite bind_gets. fold n.
  fold n in Hn.
  replace (n <? 0) with false by (symmetry; apply Z.ltb_ge; lia).
  replace (n >? max_array_length) with false
    by (symmetry; rewrite Z.gtb_ltb; apply Z.ltb_ge; lia).
  cbn [orb].
  rewrite bind_modify. fold w1.
  pose proof (start_prints_normal tty n w1) as Hnormal. fold r in Hnormal.
  assert (Hkeep : fixed_originals
                    {| console_log := Fixed.originalLog (Fixed.this w);
                       console_error := Fixed.originalError (Fixed.this w);
                       console_warn := Fixed.originalWarn (Fixed.this w) |}
                    (final r)).
  { assert (Hp : preserves
                   (fixed_originals
                      {| console_log := Fixed.originalLog (Fixed.this w);
                         console_error := Fixed.originalError (Fixed.this w);
                         console_warn := Fixed.originalWarn (Fixed.this w) |})
                   (start_prints tty n)).
    { pose proof (fixed_invoke_keeps_originals tty) as Hinv.
      unfold start_prints, Fixed.console_call. keeps; auto. }
    apply Hp. repeat split. }
  destruct Hkeep as (H1 & H2 & H3). cbn in H1, H2, H3.
  change (bind (for_upto n (fun _ => Fixed.console_call tty ChLog EmptyString))
               (fun _ =>
                  bind (Fixed.console_call tty ChLog EmptyString)
                       (fun _ =>
                          modify
                            (fun w0 =>
                               Fixed.set_console
                                 {| console_log :=
                                      Fixed.interceptConsole
                                        (Fixed.originalLog (Fixed.this w0));
                                    console_error :=
                                      Fixed.interceptConsole
                                        (Fixed.originalError (Fixed.this w0));
                                    console_warn :=
                                      Fixed.interceptConsole
                                        (Fixed.originalWarn (Fixed.this w0))
                                 |} w0))) w1)
    with (bind (for_upto n (fun _ => Fixed.console_call tty ChLog EmptyString))
               (fun _ =>
                  bind (Fixed.console_call tty ChLog EmptyString)
                       (fun _ =>
                          modify
                            (fun w0 =>
                               Fixed.set_console
                                 {| console_log :=
                                      Intercepted
                                        (Fixed.originalLog (Fixed.this w0));
                                    console_error :=
                                      Intercepted
                                        (Fixed.originalError (Fixed.this w0));
                                    console_warn :=
                                      Intercepted
                                        (Fixed.originalWarn (Fixed.this w0))
                                 |} w0))) w1).
  unfold r, start_prints in *. unfold bind in *.
  destruct (for_upto n (fun _ => Fixed.console_call tty ChLog EmptyString) w1)
    as [[[]|m] w2 t2]; cbn [completion final written] in *;
    [|discriminate Hnormal].
  destruct (Fixed.console_call tty ChLog EmptyString w2)
    as [[[]|m] w3 t3]; cbn [completion final written] in *;
    [|discriminate Hnormal].
  unfold modify. cbn [completion final written].
  rewrite H1, H2, H3, app_nil_r. reflexivity.
Qed.

Lemma fixed_start_rejects tty w :
  Fixed.totalLines (Fixed.this w) < 0 \/
  max_array_length < Fixed.totalLines (Fixed.this w) ->
  Fixed.start tty w = mkRun (Thrown "Invalid array length") w [].
Proof.
  intro Hout. unfold Fixed.start. rewrite bind_gets.
  replace ((Fixed.totalLines (Fixed.this w) <? 0)
           || (Fixed.totalLines (Fixed.this w) >? max_array_length))
    with true; [reflexivity|].
  symmetry. apply orb_true_iff. rewrite Z.ltb_lt, Z.gtb_ltb, Z.ltb_lt.
  exact Hout.
Qed.

Lemma array_length_cases (n : Z) :
  {n < 0 \/ max_array_length < n} + {0 <= n <= max_array_length}.
Proof.
  destruct (Z_lt_ge_dec n 0); [left; now left|].
  destruct (Z_lt_ge_dec max_array_length n); [left; now right|].
  right. lia.
Qed.

Lemma fixed_wired_kept tty op :
  preserves fixed_wired (Fixed.perform tty op).
Proof.
  intros w [Ho Hc]. split; [now apply fixed_perform_keeps_originals|].
  destruct op as [|i c|ch args|].
  - cbn [Fixed.perform].
    destruct (array_length_cases (Fixed.totalLines (Fixed.this w)))
      as [Hout|Hin].
    + rewrite fixed_start_rejects by exact Hout. exact Hc.
    + right. rewrite fixed_start_run by exact Hin. cbn.
      destruct Ho as (H1 & H2 & H3). now rewrite H1, H2, H3.
  - destruct Hc as [Hc|Hc]; [left|right];
      apply (fixed_perform_keeps_console tty _ (Update i c));
      solve [discriminate | exact Hc].
  - destruct Hc as [Hc|Hc]; [left|right];
      apply (fixed_perform_keeps_console tty _ (ConsoleCall ch args));
      solve [discriminate | exact Hc].
  - left. cbn. destruct Ho as (H1 & H2 & H3). now rewrite H1, H2, H3.
Qed.

(** ** A line patched on the terminal *)


(** ** A changed line, on the terminal *)









(** ** A full redraw, on the terminal *)













(** ** An intercepted message, on the terminal *)












(** ** The console functions, wrapped once *)

Lemma dynamic_wired_kept tty op :
  preserves dynamic_wired (Dynamic.perform tty op).
Proof.
  intros w [Ho Hc]. split; [now apply dynamic_perform_keeps_originals|].
  destruct op as [|k c|ch args|].
  - right. cbn. destruct Ho as (H1 & H2 & H3). now rewrite H1, H2, H3.
  - destruct Hc as [Hc|Hc]; [left|right];
      apply (dynamic_perform_keeps_console tty _ (Update k c));
      solve [discriminate | exact Hc].
  - destruct Hc as [Hc|Hc]; [left|right];
      apply (dynamic_perform_keeps_console tty _ (ConsoleCall ch args));
      solve [discriminate | exact Hc].
  - left. cbn. destruct Ho as (H1 & H2 & H3). now rewrite H1, H2, H3.
Qed.

Lemma fixed_session_wired calls :
  preserves fixed_wired (Fixed.session calls).
Proof.
  induction calls as [|[tty op] rest IH]; cbn [Fixed.session].
  - apply preserves_ret.
  - apply preserves_bind; [apply fixed_wired_kept | auto].
Qed.

Lemma dynamic_session_wired calls :
  preserves dynamic_wired (Dynamic.session calls).
Proof.
  induction calls as [|[tty op] rest IH]; cbn [Dynamic.session].
  - apply preserves_ret.
  - apply preserves_bind; [apply dynamic_wired_kept | auto].
Qed.

Lemma fixed_wired_constructor n : fixed_wired (Fixed.constructor n native_console).
Proof. split; [repeat split | now left]. Qed.

Lemma dynamic_wired_constructor : dynamic_wired (Dynamic.constructor native_console).
Proof. split; [repeat split | now left]. Qed.

(** X18. The console functions are never wrapped twice.  Whatever is
    called on an object built under the native console, and however often
    start() and stop() are repeated, the three console functions are
    either the native ones or the native ones under exactly one wrapper
    each. *)
Theorem console_wrapped_at_most_once :
  (forall n calls,
      let w := final (Fixed.session calls (Fixed.constructor n native_console))
      in Fixed.console w = native_console \/
         Fixed.console w = intercepted_console) /\
  (forall calls,
      let w := final (Dynamic.session calls
                                      (Dynamic.constructor native_console))
      in Dynamic.console w = native_console \/
         Dynamic.console w = intercepted_console).
Proof.
  split.
  - intros n calls.
    apply (fixed_session_wired calls _ (fixed_wired_constructor n)).
  - intros calls.
    apply (dynamic_session_wired calls _ dynamic_wired_constructor).
Qed.

Lemma prints_app t1 t2 : prints (t1 ++ t2) = prints t1 ++ prints t2.
Proof. apply filter_app. Qed.

Lemma prints_flat_map_none {X} (g : X -> list Event) xs :
  (forall x, prints (g x) = []) -> prints (flat_map g xs) = [].
Proof.
  intro H. induction xs as [|x xs IH]; [reflexivity|].
  cbn [flat_map]. now rewrite prints_app, H, IH.
Qed.

Lemma fixed_call_prints tty c args w :
  fixed_wired w ->
  prints (written (Fixed.console_call tty c args w)) = [Print c args].
Proof.
  intros [_ [Hk|Hk]].
  - unfold Fixed.console_call. rewrite bind_gets, Hk. now destruct c.
  - rewrite (fixed_console_call_intercepted tty c args w Hk).
    destruct (Fixed.dirty (Fixed.this w)) eqn:Hd.
    + now rewrite fixed_wrapper_dirty by exact Hd.
    + rewrite fixed_wrapper_clean by exact Hd.
      cbn [Fixed.invoke]. unfold prepend, emit. cbn [written].
      rewrite prints_app. unfold Fixed.clear_trace.
      now rewrite prints_flat_map_none.
Qed.

Lemma dynamic_call_prints tty c args w :
  dynamic_wired w ->
  prints (written (Dynamic.console_call tty c args w)) = [Print c args].
Proof.
  intros [_ [Hk|Hk]].
  - unfold Dynamic.console_call. rewrite bind_gets, Hk. now destruct c.
  - rewrite (dynamic_console_call_intercepted tty c args w Hk).
    destruct (Dynamic.dirty (Dynamic.this w)) eqn:Hd.
    + now rewrite dynamic_wrapper_dirty by exact Hd.
    + rewrite dynamic_wrapper_clean by exact Hd.
      cbn [Dynamic.invoke]. unfold prepend, emit. cbn [written].
      rewrite prints_app. unfold Dynamic.clear_trace.
      rewrite prints_app. now rewrite prints_flat_map_none.
Qed.

(** X19. No message is lost or repeated.  In any state reached from an
    object built under the native console, in either variant, a call of
    console.log, console.error or console.warn reaches the native function
    of the same channel exactly once, with the arguments it was given, and
    reaches no other native function, whether the call is wrapped or not
    and whether the block is dirty or not. *)
Theorem console_call_prints_once :
  (forall n calls tty c args,
      let w := final (Fixed.session calls (Fixed.constructor n native_console))
      in prints (written (Fixed.console_call tty c args w))
         = [Print c args]) /\
  (forall calls tty c args,
      let w := final (Dynamic.session calls
                                      (Dynamic.constructor native_console))
      in prints (written (Dynamic.console_call tty c args w))
         = [Print c args]).
Proof.
  split.
  - intros n calls tty c args w. apply fixed_call_prints.
    apply (fixed_session_wired calls _ (fixed_wired_constructor n)).
  - intros calls tty c args w. apply dynamic_call_prints.
    apply (dynamic_session_wired calls _ dynamic_wired_constructor).
Qed.

(** ** start() of the fixed-size variant *)

Lemma flat_map_repeat {X} (e : Event) (xs : list X) :
  flat_map (fun _ => [e]) xs = repeat e (List.length xs).
Proof. induction xs as [|x xs IH]; cbn; [reflexivity | now rewrite IH]. Qed.

Lemma start_prints_native tty n w :
  console_log (Fixed.console w) = Native ChLog ->
  writes (start_prints tty n) w
         (repeat (Print ChLog EmptyString) (S (Z.to_nat n))).
Proof.
  intro Hk.
  assert (Hcall : writes (Fixed.console_call tty ChLog EmptyString) w
                         [Print ChLog EmptyString]).
  { unfold writes, Fixed.console_call. rewrite bind_gets.
    cbn [console_get]. now rewrite Hk. }
  replace (repeat (Print ChLog EmptyString) (S (Z.to_nat n)))
    with (flat_map (fun _ : Z => [Print ChLog EmptyString])
                   (zseq 0 (Z.to_nat n))
          ++ [Print ChLog EmptyString]).
  - unfold start_prints. apply writes_bind; [|exact Hcall].
    apply for_from_writes. intros _. exact Hcall.
  - rewrite flat_map_repeat, zseq_length. symmetry. apply repeat_cons.
Qed.

Lemma start_prints_intercepted tty n w :
  Fixed.console w = intercepted_console ->
  Fixed.dirty (Fixed.this w) = false ->
  start_prints tty n w
  = mkRun (Normal tt) (Fixed.set_dirty true w)
          (Fixed.clear_trace tty (Fixed.totalLines (Fixed.this w))
           ++ repeat (Print ChLog EmptyString) (S (Z.to_nat n))).
Proof.
  intros Hk Hd.
  set (w2 := Fixed.set_dirty true w).
  assert (Hfirst : Fixed.console_call tty ChLog EmptyString w
                   = mkRun (Normal tt) w2
                           (Fixed.clear_trace tty
                              (Fixed.totalLines (Fixed.this w))
                            ++ [Print ChLog EmptyString])).
  { rewrite (fixed_console_call_intercepted tty ChLog EmptyString w Hk).
    now rewrite fixed_wrapper_clean by exact Hd. }
  assert (Hnext : writes (Fixed.console_call tty ChLog EmptyString) w2
                         [Print ChLog EmptyString]).
  { unfold writes.
    rewrite (fixed_console_call_intercepted tty ChLog EmptyString w2 Hk).
    now rewrite fixed_wrapper_dirty by reflexivity. }
  assert (Hloop : forall count start,
             writes (for_from
                       (fun _ => Fixed.console_call tty ChLog EmptyString)
                       start count)
                    w2 (repeat (Print ChLog EmptyString) count)).
  { intros count start.
    rewrite <- (zseq_length start count) at 2. rewrite <- flat_map_repeat.
    apply for_from_writes. intros _. exact Hnext. }
  unfold start_prints, for_upto.
  destruct (Z.to_nat n) as [|n'].
  - cbn [for_from]. rewrite (bind_writes _ _ w []) by reflexivity.
    rewrite Hfirst. reflexivity.
  - cbn [for_from].
    rewrite (bind_run _ _ w tt w2
               (Fixed.clear_trace tty (Fixed.totalLines (Fixed.this w))
                ++ repeat (Print ChLog EmptyString) (S n'))).
    + rewrite Hnext. unfold prepend. cbn [completion final written].
      f_equal. rewrite <- app_assoc. f_equal.
      change (repeat (Print ChLog EmptyString) (S n')
              ++ [Print ChLog EmptyString]
              = repeat (Print ChLog EmptyString) (S (S n'))).
      symmetry. apply (repeat_cons (S n')).
    + rewrite (bind_run _ _ w tt w2 _ Hfirst).
      rewrite (Hloop n' (0 + 1)). unfold prepend.
      cbn [completion final written]. f_equal.
      now rewrite <- app_assoc.
Qed.

(** X20. start() of the fixed-size variant while console.log is the
    native function (a fresh object, or one that was stopped).  When
    [totalLines] is not an array length (it is negative, or above
    2^32 - 1) it throws "Invalid array length" before anything is
    printed, stored or wrapped.  Otherwise it returns normally, stores
    [totalLines] empty strings, prints [totalLines] + 1 empty messages
    through console.log and nothing else, and then binds the three console
    functions to wrappers of the functions the constructor captured. *)
Theorem fixed_start_from_native_log tty w :
  console_log (Fixed.console w) = Native ChLog ->
  let n := Fixed.totalLines (Fixed.this w) in
  Fixed.start tty w
  = if (n <? 0) || (4294967295 <? n)
    then mkRun (Thrown "Invalid array length") w []
    else mkRun (Normal tt)
               (Fixed.set_console
                  {| console_log :=
                       Intercepted (Fixed.originalLog (Fixed.this w));
                     console_error :=
                       Intercepted (Fixed.originalError (Fixed.this w));
                     console_warn :=
                       Intercepted (Fixed.originalWarn (Fixed.this w)) |}
                  (Fixed.set_lines (repeat (Some EmptyString) (Z.to_nat n))
                                   w))
               (repeat (Print ChLog EmptyString) (S (Z.to_nat n))).
Proof.
  intros Hk n.
  destruct (array_length_cases n) as [Hout|Hin].
  - replace ((n <? 0) || (4294967295 <? n)) with true.
    + now apply fixed_start_rejects.
    + symmetry. apply orb_true_iff. rewrite !Z.ltb_lt. exact Hout.
  - replace ((n <? 0) || (4294967295 <? n)) with false.
    + rewrite (fixed_start_run tty w Hin). fold n.
      pose proof (start_prints_native
                    tty n
                    (Fixed.set_lines (repeat (Some EmptyString) (Z.to_nat n))
                                     w)
                    Hk) as E.
      unfold writes in E. now rewrite E.
    + symmetry. apply orb_false_iff. rewrite !Z.ltb_ge.
      unfold max_array_length in Hin. lia.
Qed.

Lemma fixed_start_from_native_log_witness :
  let tty := {| rows := 24; columns := Some 80 |} in
  written (Fixed.start tty (Fixed.constructor 2 native_console))
  = [Print ChLog ""; Print ChLog ""; Print ChLog ""]%string.
Proof.
  intro tty.
  exact (f_equal written
                 (fixed_start_from_native_log
                    tty (Fixed.constructor 2 native_console) eq_refl)).
Defined.

(** X21. start() of the fixed-size variant on a block that is already
    started and clean is not a no-op: every stored content is replaced by
    the empty string, the block is cleared on the terminal (once),
    [totalLines] + 1 empty messages reach the native console.log, and the
    block is left dirty.  The console functions stay wrapped once.  (A
    block that was started has an array length for [totalLines].) *)
Theorem fixed_start_again_wipes_lines tty w :
  fixed_originals native_console w ->
  Fixed.console w = intercepted_console ->
  Fixed.dirty (Fixed.this w) = false ->
  0 <= Fixed.totalLines (Fixed.this w) <= 4294967295 ->
  let n := Fixed.totalLines (Fixed.this w) in
  Fixed.start tty w
  = mkRun (Normal tt)
          (Fixed.set_dirty true
             (Fixed.set_lines (repeat (Some EmptyString) (Z.to_nat n)) w))
          (Fixed.clear_trace tty n
           ++ repeat (Print ChLog EmptyString) (S (Z.to_nat n))).
Proof.
  intros (H1 & H2 & H3) Hk Hd Hn n.
  rewrite (fixed_start_run tty w Hn). fold n.
  rewrite (start_prints_intercepted tty n) by assumption.
  cbn [final written]. f_equal.
  rewrite H1, H2, H3. unfold Fixed.set_console. cbn [Fixed.this].
  change (Fixed.console w = intercepted_console) in Hk.
  destruct w as [t k]. cbn in *. now subst k.
Qed.

Lemma fixed_start_again_wipes_lines_witness :
  let tty := {| rows := 24; columns := Some 80 |} in
  let w := final (Fixed.session [(tty, Start); (tty, Update 0 "kept?")]
                                (Fixed.constructor 1 native_console)) in
  Fixed.lines (Fixed.this (final (Fixed.start tty w))) = [Some ""%string].
Proof.
  intros tty w.
  assert (Ho : fixed_originals native_console w) by (repeat split).
  assert (Hn : 0 <= Fixed.totalLines (Fixed.this w) <= 4294967295)
    by (change (0 <= 1 <= 4294967295); lia).
  exact (f_equal (fun r => Fixed.lines (Fixed.this (final r)))
                 (fixed_start_again_wipes_lines tty w Ho eq_refl eq_refl Hn)).
Defined.

(** ** The lines array, once started *)

Lemma array_put_length (l : JsArray) (i : nat) (v : string) :
  (i < List.length l)%nat ->
  List.length (array_put l i v) = List.length l.
Proof.
  revert l. induction i as [|i IH]; intros [|x l] H; cbn in *; try lia.
  rewrite IH by lia. reflexivity.
Qed.

Lemma array_put_full (l : JsArray) (i : nat) (v : string) :
  (i < List.length l)%nat ->
  Forall (fun x => x <> None) l ->
  Forall (fun x => x <> None) (array_put l i v).
Proof.
  revert l. induction i as [|i IH]; intros [|x l] H Hall; cbn in *;
    try lia; inversion Hall; subst; constructor; auto.
  - discriminate.
  - apply IH; [lia | assumption].
Qed.

Lemma fixed_invoke_keeps_this tty (t : Fixed.StatusManager) f args :
  preserves (fun w => Fixed.lines (Fixed.this w) = Fixed.lines t /\
                      Fixed.totalLines (Fixed.this w) = Fixed.totalLines t)
            (Fixed.invoke tty f args).
Proof.
  induction f as [c|o IH]; cbn [Fixed.invoke]; [auto with keeps|].
  unfold Fixed.clearLines, Fixed.moveCursorToLine, Fixed.clearLine.
  keeps; auto.
Qed.

Lemma fixed_call_keeps_this tty (t : Fixed.StatusManager) c args :
  preserves (fun w => Fixed.lines (Fixed.this w) = Fixed.lines t /\
                      Fixed.totalLines (Fixed.this w) = Fixed.totalLines t)
            (Fixed.console_call tty c args).
Proof.
  pose proof (fixed_invoke_keeps_this tty t) as Hinv.
  unfold Fixed.console_call. keeps; auto.
Qed.

Lemma fixed_start_full tty w :
  0 <= Fixed.totalLines (Fixed.this w) <= max_array_length ->
  fixed_full (final (Fixed.start tty w)).
Proof.
  intro Hpos. rewrite (fixed_start_run tty w Hpos). cbn [final].
  set (n := Fixed.totalLines (Fixed.this w)) in *.
  set (w1 := Fixed.set_lines (repeat (Some EmptyString) (Z.to_nat n)) w).
  assert (Hp : preserves
                 (fun w0 => Fixed.lines (Fixed.this w0)
                            = Fixed.lines (Fixed.this w1) /\
                            Fixed.totalLines (Fixed.this w0)
                            = Fixed.totalLines (Fixed.this w1))
                 (start_prints tty n)).
  { pose proof (fixed_call_keeps_this tty (Fixed.this w1)) as Hcall.
    unfold start_prints. keeps; auto. }
  destruct (Hp w1 (conj eq_refl eq_refl)) as [El En].
  unfold fixed_full, Fixed.set_console. cbn [Fixed.this].
  rewrite El, En.
  cbn [w1 Fixed.set_lines Fixed.lines Fixed.totalLines Fixed.this].
  fold n. split; [apply repeat_length|].
  apply Forall_forall. intros x Hx. apply repeat_spec in Hx.
  subst x. discriminate.
Qed.

Lemma fixed_full_kept tty op :
  preserves fixed_full (Fixed.perform tty op).
Proof.
  intros w [Hlen Hall].
  destruct op as [|i c|ch args|]; cbn [Fixed.perform].
  - destruct (array_length_cases (Fixed.totalLines (Fixed.this w)))
      as [Hout|Hin].
    + rewrite fixed_start_rejects by exact Hout. split; assumption.
    + now apply fixed_start_full.
  - destruct (Z_lt_ge_dec i 0) as [Hlo|Hlo];
      [rewrite fixed_update_guard by lia; split; assumption|].
    destruct (Z_lt_ge_dec i (Fixed.totalLines (Fixed.this w))) as [Hhi|Hhi];
      [|rewrite fixed_update_guard by lia; split; assumption].
    rewrite (fixed_update_run tty i c w) by lia.
    assert (Hi : (Z.to_nat i < List.length (Fixed.lines (Fixed.this w)))%nat)
      by lia.
    destruct (Fixed.dirty (Fixed.this w)); cbn [final];
      unfold fixed_full;
      cbn [Fixed.set_dirty Fixed.set_lines Fixed.lines Fixed.totalLines
             Fixed.this];
      (split; [rewrite array_put_length by exact Hi; exact Hlen
              | apply array_put_full; assumption]).
  - destruct (fixed_call_keeps_this tty (Fixed.this w) ch args w
                                    (conj eq_refl eq_refl)) as [El En].
    unfold fixed_full. rewrite El, En. split; assumption.
  - cbn. split; assumption.
Qed.

Lemma fixed_session_full calls :
  preserves fixed_full (Fixed.session calls).
Proof.
  induction calls as [|[tty op] rest IH]; cbn [Fixed.session].
  - apply preserves_ret.
  - apply preserves_bind; [apply fixed_full_kept | auto].
Qed.

Lemma fixed_full_reads w i :
  fixed_full w -> 0 <= i < Fixed.totalLines (Fixed.this w) ->
  exists s, array_get (Fixed.lines (Fixed.this w)) i = Some s.
Proof.
  intros [Hlen Hall] Hi. unfold array_get.
  replace (i <? 0) with false by (symmetry; apply Z.ltb_ge; lia).
  destruct (nth_error (Fixed.lines (Fixed.this w)) (Z.to_nat i)) as [v|] eqn:E.
  - apply nth_error_In in E. rewrite Forall_forall in Hall.
    specialize (Hall v E). destruct v as [s|]; [eauto | contradiction].
  - apply nth_error_None in E. lia.
Qed.

(** X22. Once start() has been called with a [totalLines] that is not
    too large for an array (at most 2^32 - 1), the lines array of the
    fixed-size variant is full: whatever follows (updates in or out of
    range, console calls, stop(), start() again), it has exactly
    [totalLines] entries (none when [totalLines] is negative) and every
    index below [totalLines] reads a string, never [undefined]. *)
Theorem fixed_lines_full_once_started n k tty0 calls i :
  n <= 4294967295 ->
  let w := final (Fixed.session ((tty0, Start) :: calls)
                                (Fixed.constructor n k)) in
  Z.of_nat (List.length (Fixed.lines (Fixed.this w)))
  = Z.max 0 (Fixed.totalLines (Fixed.this w)) /\
  (0 <= i < Fixed.totalLines (Fixed.this w) ->
   exists s, array_get (Fixed.lines (Fixed.this w)) i = Some s).
Proof.
  intros Hmax w.
  assert (Hfull : fixed_full w).
  { unfold w. cbn [Fixed.session Fixed.perform].
    set (w0 := Fixed.constructor n k).
    destruct (Z_lt_ge_dec n 0) as [Hneg|Hpos].
    - unfold bind.
      rewrite (fixed_start_rejects tty0 w0) by (left; exact Hneg).
      cbn [completion final].
      split; cbn; [lia | constructor].
    - assert (Hin : 0 <= Fixed.totalLines (Fixed.this w0)
                    <= max_array_length)
        by (unfold max_array_length; cbn; lia).
      pose proof (fixed_start_full tty0 w0 Hin) as Hfull.
      pose proof (fixed_start_run tty0 w0 Hin) as E. cbv zeta in E.
      rewrite E in Hfull. cbn [final] in Hfull.
      rewrite (bind_run _ (fun _ => Fixed.session calls) _ _ _ _ E).
      unfold prepend. cbn [final].
      now apply fixed_session_full. }
  split.
  - destruct Hfull as [Hlen _]. lia.
  - intro Hi. now apply fixed_full_reads.
Qed.

Lemma fixed_lines_full_once_started_witness :
  let tty := {| rows := 24; columns := Some 80 |} in
  let calls := [(tty, Update 0 "zero"); (tty, Update 5 "five");
                (tty, ConsoleCall ChLog "hello"); (tty, Stop)] in
  let w := final (Fixed.session ((tty, Start) :: calls)
                                (Fixed.constructor 2 native_console)) in
  exists s, array_get (Fixed.lines (Fixed.this w)) 1 = Some s.
Proof.
  intros tty calls w.
  assert (Hmax : 2 <= 4294967295) by lia.
  apply (proj2 (fixed_lines_full_once_started
                  2 native_console tty calls 1 Hmax)).
  change (0 <= 1 < 2). lia.
Defined.

(** ** The block on the terminal, through a session *)





















